(** * Segmentation and concatenation of MP4 clips (src/utils/videoUtils.ts)

    A shallow embedding of [getInfo], [getSamples], [cutVideo] and
    [combineVideos], and the properties of the two engines.

    Modelling choices.
    - A JavaScript [number] that the code reads from its inputs (ticks,
      timescales, the requested segment duration) is a rational [Q]: the
      value of the double.  The divisions, products and differences of
      [cutVideo] give the double nearest to the exact result, ties to even,
      with gradual underflow: [nearestDouble] of the exact rational.  The
      values the code computes by division are [number]s: a rational, or
      one of [Infinity], [-Infinity], [NaN], which is what an overflow or a
      division by zero yields and what makes every later comparison false.
      The products of line 128 and the differences of lines 133 and 134 are
      taken to stay in the range of doubles, as they do for time stamps
      below 2^1022 in magnitude; the sign of zero is not modelled.
    - The sums of [combineVideos] (lines 207, 208 and 213) are kept exact,
      as they are on tick counts below 2^53; what is stated of
      [combineVideos] is the structure of its output and the zero offset of
      its first source.
    - The browser and the MP4Box library are not part of the repository.
      They are the record [Env]: what a fetch returns, what MP4Box reports
      for a byte buffer, which identifier [addTrack] returns, which bytes
      [getBuffer] writes, which URL [URL.createObjectURL] hands out.
    - MP4Box delivers, of the [onSamples] calls a buffer gives rise to, those
      of the tracks that were given extraction options ([delivered]).
    - A promise is its [Outcome]; the calls a run makes to the environment
      are recorded, in order, in a list of [Event]s. *)

From Stdlib Require Import ZArith QArith Qround Lia Lqa DecimalString Sorted.
From Stdlib Require DecimalNat DecimalFacts Floats.
From stdpp Require Import base option list strings gmap.

Local Open Scope Q_scope.

(** ** JavaScript numbers *)

Inductive number : Type :=
| Fin (q : Q)
| PosInf
| NegInf
| NaN.

Definition Qltb (a b : Q) : bool := negb (Qle_bool b a).

(** [a <= b]; [a >= b] is [num_le b a]. *)
Definition num_le (a b : number) : bool :=
  match a, b with
  | NaN, _ | _, NaN => false
  | Fin x, Fin y => Qle_bool x y
  | NegInf, _ => true
  | _, PosInf => true
  | _, _ => false
  end.

(** [a < b]; [a > b] is [num_lt b a]. *)
Definition num_lt (a b : number) : bool :=
  match a, b with
  | NaN, _ | _, NaN => false
  | Fin x, Fin y => Qltb x y
  | PosInf, _ => false
  | _, NegInf => false
  | _, _ => true
  end.

(** *** Rounding to a double

    The nearest integer to [n / d], for [d > 0]; a tie goes to the even
    one. *)
Definition nearestEven (n d : Z) : Z :=
  let q := (n / d)%Z in
  match (2 * (n mod d) ?= d)%Z with
  | Lt => q
  | Gt => (q + 1)%Z
  | Eq => if Z.even q then q else (q + 1)%Z
  end.

(** The [k] with [2^k <= n / d < 2^(k+1)]. *)
Definition binade (n d : positive) : Z :=
  let k := (Z.log2 (Zpos n) - Z.log2 (Zpos d))%Z in
  if (if (0 <=? k)%Z then (Zpos d * 2 ^ k <=? Zpos n)%Z
      else (Zpos d <=? Zpos n * 2 ^ (- k))%Z)
  then k else (k - 1)%Z.

(** [2^j <= n / d] *)
Definition atLeastPow2 (j : Z) (n d : positive) : Prop :=
  (Zpos d * 2 ^ Z.max 0 j <= Zpos n * 2 ^ Z.max 0 (- j))%Z.

(** The exponent of the last bit of the double nearest to [n / d]: that of
    the last of 53 significant bits, or -1074, the exponent of the least
    positive double, when that is more. *)
Definition lastPlace (n d : positive) : Z := Z.max (binade n d - 52) (-1074).

(** [n / d / 2^e], rounded to an integer. *)
Definition significand (n d : positive) (e : Z) : Z :=
  if (0 <=? e)%Z then nearestEven (Zpos n) (Zpos d * 2 ^ e)
  else nearestEven (Zpos n * 2 ^ (- e)) (Zpos d).

(** [m * 2^e] *)
Definition scaled (m e : Z) : Q :=
  if (0 <=? e)%Z then inject_Z (m * 2 ^ e) else Qmake m (Z.to_pos (2 ^ (- e))).

(** [n / d] rounded to the precision of a double: the nearest multiple of
    [2^e], for [e] the exponent of its last place. *)
Definition roundPos (n d : positive) : Q :=
  scaled (significand n d (lastPlace n d)) (lastPlace n d).

(** The double nearest to [q] were the exponents of doubles not bounded
    above, in lowest terms. *)
Definition nearestDouble (q : Q) : Q :=
  let r := Qred q in
  Qred match Qnum r with
       | Z0 => 0
       | Zpos n => roundPos n (Qden r)
       | Zneg n => - roundPos n (Qden r)
       end.

(** The least magnitude that rounds to an infinity. *)
Definition overflow : Q := inject_Z (2 ^ 1024).

(** The result of an operation on doubles whose exact value is [q]. *)
Definition double (q : Q) : number :=
  let r := nearestDouble q in
  if Qle_bool overflow r then PosInf
  else if Qle_bool r (- overflow) then NegInf
  else Fin r.


(** The value of a double of the machine, with which [double] is compared
    in [double_agrees_with_machine]. *)
Definition ofFloat (f : PrimFloat.float) : number :=
  match FloatOps.Prim2SF f with
  | SpecFloat.S754_zero _ => Fin 0
  | SpecFloat.S754_finite s m e =>
      let v := scaled (Zpos m) e in Fin (Qred (if s then - v else v))
  | SpecFloat.S754_infinity s => if s then NegInf else PosInf
  | SpecFloat.S754_nan => NaN
  end.

(** The double [m * 2^e] of the machine, for [0 <= m < 2^53]. *)
Definition toFloat (m e : Z) : PrimFloat.float :=
  FloatOps.Z.ldexp (PrimFloat.of_uint63 (Uint63.of_Z m)) e.

(** The double [n / d] of the machine. *)
Definition ratio (n d : Z) : PrimFloat.float :=
  PrimFloat.div (toFloat n 0) (toFloat d 0).

(** [a / b] for a divisor read from the input. *)
Definition num_div (a : number) (b : Q) : number :=
  match a with
  | NaN => NaN
  | Fin x =>
      if Qeq_bool b 0 then
        if Qltb 0 x then PosInf else if Qltb x 0 then NegInf else NaN
      else double (x / b)
  | PosInf => if Qltb b 0 then NegInf else PosInf
  | NegInf => if Qltb b 0 then PosInf else NegInf
  end.

Definition Math_ceil (a : number) : number :=
  match a with
  | Fin x => Fin (inject_Z (Qceiling x))
  | _ => a
  end.

Definition Math_floor (a : number) : number :=
  match a with
  | Fin x => Fin (inject_Z (Qfloor x))
  | _ => a
  end.

(** ** Data model *)

Definition ArrayBuffer : Type := list Byte.byte.
Definition Date : Type := Z.
Bind Scope Z_scope with Date.

Module Sample.
(** One access unit as MP4Box delivers it. *)
Record t : Type := mk {
  dts : Q;
  cts : Q;
  duration : Q;
  is_sync : bool;
  data : ArrayBuffer
}.
End Sample.

Module Track.
(** An entry of [info.tracks]; [codec] stands for the remaining
    properties, which the code copies without reading them. *)
Record t : Type := mk {
  id : Z;
  timescale : Q;
  nb_samples : Z;
  duration : Q;
  created : Date;
  modified : Date;
  codec : string
}.
End Track.

Module Info.
(** [interface MP4BoxInfo]. *)
Record t : Type := mk {
  duration : Q;
  timescale : Q;
  tracks : list Track.t
}.
End Info.

Module TrackOptions.
(** The object literal handed to [addTrack]: the track it spreads
    ([...track], [None] for a spread of [undefined]) and the properties
    written over it. *)
Record t : Type := mk {
  spread : option Track.t;
  id : option Z;
  created : option Date;
  modified : option Date;
  nb_samples : Z;
  duration : Q
}.
End TrackOptions.

Module MP4File.
(** An output file made by [MP4Box.createFile()]: the tracks added to it,
    each with the identifier [addTrack] returned, and the samples added to
    it, each with the track identifier [addSample] was given. *)
Record t : Type := mk {
  tracks : list (Z * TrackOptions.t);
  samples : list (Z * Sample.t)
}.
Definition empty : t := mk [] [].
End MP4File.

Module Clip.
(** An entry of the list [cutVideo] resolves to. *)
Record t : Type := mk { url : string; name : string }.
End Clip.

Inductive Error : Type :=
| Err (message : string).

(** The names the specification gives to the errors the code throws. *)
Definition InvalidContainer_info : Error :=
  Err "Invalid video file: No tracks found.".
Definition InvalidContainer_samples : Error :=
  Err "Invalid video file: No tracks found for sample extraction.".
Definition InvalidDuration : Error := Err "Invalid video duration.".
Definition ExtractionFailure : Error :=
  Err "Failed to extract any clips from the video. It may be corrupted.".
Definition EmptyInput : Error := Err "No videos to combine.".
(** A method call on [undefined]. *)
Definition TypeError : Error := Err "TypeError".

(** What MP4Box does with a buffer appended to a fresh file. *)
Inductive Parse : Type :=
| ParseError (e : Error)
    (* onError(e) *)
| ParseReady (info : Info.t) (batches : list (Z * list Sample.t))
    (* onReady(info); [batches] are the onSamples(id, _, samples) calls made
       when every track is extracted, in the order they are made *)
| ParseSilent.
    (* neither callback is called *)

Inductive Outcome (A : Type) : Type :=
| Resolved (a : A)
| Rejected (e : Error)
| Pending.
    (* the promise is never settled *)
Arguments Resolved {A} a.
Arguments Rejected {A} e.
Arguments Pending {A}.

Inductive Event : Type :=
| EvFetch (url : string)
| EvCreateFile
| EvAppendBuffer (buffer : ArrayBuffer)
| EvGetBuffer (file : MP4File.t)
| EvCreateObjectURL (buffer : ArrayBuffer).

Record Env : Type := mkEnv {
  fetch : string -> Outcome ArrayBuffer;
    (* fetch(url).then(res => res.arrayBuffer()) *)
  parse : ArrayBuffer -> Parse;
  addTrack_id : MP4File.t -> TrackOptions.t -> Z;
  getBuffer : MP4File.t -> ArrayBuffer;
  createObjectURL : ArrayBuffer -> string;
  now_created : Date;
  now_modified : Date
    (* the two readings of [new Date()] in combineVideos *)
}.

(** ** Promises with a record of the calls made *)

Definition M (A : Type) : Type := list Event * Outcome A.

#[global] Instance M_ret : MRet M := fun A a => ([], Resolved a).
Definition reject {A} (e : Error) : M A := ([], Rejected e).
Definition pending {A} : M A := ([], Pending).
Definition tell (evs : list Event) : M unit := (evs, Resolved tt).

#[global] Instance M_bind : MBind M := fun A B k m =>
  match m with
  | (tr, Resolved a) => let '(tr', o) := k a in (tr ++ tr', o)
  | (tr, Rejected e) => (tr, Rejected e)
  | (tr, Pending) => (tr, Pending)
  end.

Definition await {A} (o : Outcome A) : M A := ([], o).

(** Left-to-right loop whose body can throw. *)
Fixpoint foldE {A S} (f : A -> S -> Error + S) (l : list A) (s : S) : Error + S :=
  match l with
  | [] => inr s
  | a :: l' =>
      match f a s with
      | inl e => inl e
      | inr s' => foldE f l' s'
      end
  end.

(** Left-to-right loop whose body awaits. *)
Fixpoint foldM {A S} (f : A -> S -> M S) (l : list A) (s : S) : M S :=
  match l with
  | [] => mret s
  | a :: l' => s' ← f a s; foldM f l' s'
  end.

(** ** The MP4Box calls on an output file *)

Section Engine.

Context (env : Env).

Definition addTrack (options : TrackOptions.t) (file : MP4File.t) : Z * MP4File.t :=
  let newId := addTrack_id env file options in
  (newId, MP4File.mk (MP4File.tracks file ++ [(newId, options)]) (MP4File.samples file)).

Definition addSample (trackId : Z) (sample : Sample.t) (file : MP4File.t) : MP4File.t :=
  MP4File.mk (MP4File.tracks file) (MP4File.samples file ++ [(trackId, sample)]).

(** ** getInfo (lines 13-29) *)

Definition getInfo (buffer : ArrayBuffer) : M Info.t :=
  tell [EvCreateFile; EvAppendBuffer buffer];;
  match parse env buffer with
  | ParseError e => reject e
  | ParseReady info _ =>
      match Info.tracks info with
      | [] => reject InvalidContainer_info
      | _ :: _ => mret info
      end
  | ParseSilent => pending
  end.

(** ** getSamples (lines 32-62)

    Only [info.tracks[0]] is given extraction options, so only the batches of
    that track are delivered; [flush] then resolves with what was pushed. *)

Definition delivered (extracted : list Z) (batches : list (Z * list Sample.t))
  : list (Z * list Sample.t) :=
  filter (fun b => bool_decide (b.1 ∈ extracted)) batches.

Definition getSamples (buffer : ArrayBuffer) : M (list Sample.t) :=
  tell [EvCreateFile; EvAppendBuffer buffer];;
  match parse env buffer with
  | ParseError e => reject e
  | ParseReady info batches =>
      match Info.tracks info with
      | [] => reject InvalidContainer_samples
      | track0 :: _ =>
          let trackId := Track.id track0 in
          let allSamples := concat (map snd (delivered [trackId] batches)) in
          mret allSamples
      end
  | ParseSilent => mret []
  end.

(** ** cutVideo (lines 72-168) *)

(** [`clip_${String(i + 1).padStart(2, '0')}.mp4`] *)
Fixpoint zeros (n : nat) (s : string) : string :=
  match n with
  | O => s
  | S n' => String.app "0" (zeros n' s)
  end.

Definition padStart2 (s : string) : string := zeros (2 - String.length s) s.

Definition clipName (i : nat) : string :=
  String.app "clip_"
    (String.app (padStart2 (NilZero.string_of_uint (Nat.to_uint (i + 1)))) ".mp4").

Definition totalDurationInSeconds (info : Info.t) : number :=
  num_div (Fin (Info.duration info)) (Info.timescale info).

Definition numSegmentsOf (info : Info.t) (segmentDuration : Q) : number :=
  Math_ceil (num_div (totalDurationInSeconds info) segmentDuration).

(** Lines 84-88: [for (let i = 0; i < numSegments; i++)].  The test is false
    at once for [NaN] and [-Infinity]; it is never false for [Infinity], and
    the loop, given the memory it asks for, does not end.  The counter [i]
    is exact, as it is below 2^53. *)
Definition createSegmentFiles (numSegments : number) : M (list MP4File.t) :=
  match numSegments with
  | Fin n =>
      let count := Z.to_nat (Qceiling n) in
      tell (replicate count EvCreateFile);;
      mret (replicate count MP4File.empty)
  | PosInf => pending
  | NegInf | NaN => mret []
  end.

(** Lines 91-95: the inner loop, one [addTrack] per segment file. *)
Definition addTrackToSegments (track : Track.t) (segmentFiles : list MP4File.t)
  : list Z * list MP4File.t :=
  let added :=
    map (addTrack (TrackOptions.mk (Some track) None None None 0%Z 0)) segmentFiles in
  (map fst added, map snd added).

(** Lines 90-96: one round of the outer loop, with [trackIdMap.set]. *)
Definition prepareTrack (state : list MP4File.t * gmap Z (list Z)) (track : Track.t)
  : list MP4File.t * gmap Z (list Z) :=
  let '(segmentFiles, trackIdMap) := state in
  let '(newTrackIds, segmentFiles') := addTrackToSegments track segmentFiles in
  (segmentFiles', <[Track.id track := newTrackIds]> trackIdMap).

(** Lines 89-97: the outer loop. *)
Definition prepareTracks (tracks : list Track.t) (segmentFiles : list MP4File.t)
  : list MP4File.t * gmap Z (list Z) :=
  foldl prepareTrack (segmentFiles, ∅) tracks.

Definition segmentIndexOf (segmentDuration timescale : Q) (sample : Sample.t) : number :=
  let sampleTimeInSeconds := num_div (Fin (Sample.dts sample)) timescale in
  Math_floor (num_div sampleTimeInSeconds segmentDuration).

(** Line 128: [segmentIndex * segmentDuration * timescale], two products
    of doubles. *)
Definition segmentStartTimeInTimescale (segmentIndex segmentDuration timescale : Q) : Q :=
  nearestDouble (nearestDouble (segmentIndex * segmentDuration) * timescale).

(** Lines 132-134: the copy with both timestamps moved back. *)
Definition rebase (segmentStart : Q) (sample : Sample.t) : Sample.t :=
  Sample.mk (nearestDouble (Sample.dts sample - segmentStart))
            (nearestDouble (Sample.cts sample - segmentStart))
            (Sample.duration sample) (Sample.is_sync sample) (Sample.data sample).

(** Lines 121-136: the body of the loop over the samples of one call.  An
    index that is not finite fails the test of line 125, since every
    comparison with [NaN] is false, [-Infinity >= 0] is false and
    [Infinity < numSegments] is false.  [newTrackIds] has one entry for each
    segment file, so the reads of lines 126 and 127 are defined together;
    when they are not, line 135 calls a method of [undefined] and throws. *)
Definition placeSample (numSegments : number) (segmentDuration timescale : Q)
    (newTrackIds : list Z) (sample : Sample.t) (segmentFiles : list MP4File.t)
  : Error + list MP4File.t :=
  let segmentIndex := segmentIndexOf segmentDuration timescale sample in
  match segmentIndex with
  | Fin index =>
      if num_le (Fin 0) segmentIndex && num_lt segmentIndex numSegments then
        let i := Z.to_nat (Qfloor index) in
        match segmentFiles !! i, newTrackIds !! i with
        | Some segmentFile, Some newTrackId =>
            let newSample :=
              rebase (segmentStartTimeInTimescale index segmentDuration timescale)
                     sample in
            inr (<[i := addSample newTrackId newSample segmentFile]> segmentFiles)
        | _, _ => inl TypeError
        end
      else inr segmentFiles
  | _ => inr segmentFiles
  end.

(** Lines 112-138: [mainFile.onSamples]. *)
Definition onSamples (tracks : list Track.t) (trackIdMap : gmap Z (list Z))
    (numSegments : number) (segmentDuration : Q)
    (call : Z * list Sample.t) (segmentFiles : list MP4File.t)
  : Error + list MP4File.t :=
  let '(trackId, samples) := call in
  match List.find (fun t => Z.eqb (Track.id t) trackId) tracks with
  | None => inr segmentFiles
  | Some track =>
      let timescale := Track.timescale track in
      match trackIdMap !! trackId with
      | None => inr segmentFiles
      | Some newTrackIds =>
          foldE (placeSample numSegments segmentDuration timescale newTrackIds)
                samples segmentFiles
      end
  end.

(** Lines 143-150: the loop of [mainFile.onFlush], from index [i] on. *)
Fixpoint finalizeFrom (i : nat) (segmentFiles : list MP4File.t)
  : list Event * list Clip.t :=
  match segmentFiles with
  | [] => ([], [])
  | file :: rest =>
      let segmentBuffer := getBuffer env file in
      let '(events, clipUrls) := finalizeFrom (S i) rest in
      if (0 <? length segmentBuffer)%nat then
        (EvGetBuffer file :: EvCreateObjectURL segmentBuffer :: events,
         Clip.mk (createObjectURL env segmentBuffer) (clipName i) :: clipUrls)
      else (EvGetBuffer file :: events, clipUrls)
  end.

(** Lines 141-157: [mainFile.onFlush]. *)
Definition onFlush (numSegments : number) (segmentFiles : list MP4File.t)
  : M (list Clip.t) :=
  let '(events, clipUrls) := finalizeFrom 0 segmentFiles in
  tell events;;
  if (length clipUrls =? 0)%nat && num_lt (Fin 0) numSegments
  then reject ExtractionFailure
  else mret clipUrls.

(** Lines 100-109 and 160-163: the second parse of the buffer.  [onReady]
    asks for every track of [info], so the calls delivered are those of
    these tracks; an exception thrown by a callback leaves [appendBuffer]
    and is caught at line 164.  After [onError] has rejected, what
    [onFlush] settles is ignored. *)
Definition streamMainFile (tracks : list Track.t) (trackIdMap : gmap Z (list Z))
    (numSegments : number) (segmentDuration : Q)
    (videoBuffer : ArrayBuffer) (segmentFiles : list MP4File.t)
  : M (list Clip.t) :=
  tell [EvCreateFile; EvAppendBuffer videoBuffer];;
  match parse env videoBuffer with
  | ParseError e => (fst (onFlush numSegments segmentFiles), Rejected e)
  | ParseSilent => onFlush numSegments segmentFiles
  | ParseReady info batches =>
      let calls := delivered (map Track.id (Info.tracks info)) batches in
      match foldE (onSamples tracks trackIdMap numSegments segmentDuration)
                  calls segmentFiles with
      | inl e => reject e
      | inr segmentFiles' => onFlush numSegments segmentFiles'
      end
  end.

Definition cutVideo (videoBuffer : ArrayBuffer) (segmentDuration : Q)
  : M (list Clip.t) :=
  originalInfo ← getInfo videoBuffer;
  let tracks := Info.tracks originalInfo in
  if num_le (totalDurationInSeconds originalInfo) (Fin 0) then
    reject InvalidDuration
  else
    let numSegments := numSegmentsOf originalInfo segmentDuration in
    segmentFiles ← createSegmentFiles numSegments;
    let '(segmentFiles, trackIdMap) := prepareTracks tracks segmentFiles in
    streamMainFile tracks trackIdMap numSegments segmentDuration
                   videoBuffer segmentFiles.

(** ** combineVideos (lines 175-220) *)

Definition fetchBuffer (url : string) : M ArrayBuffer :=
  tell [EvFetch url];; await (fetch env url).

(** Lines 207-208: [sample.dts += accumulatedDuration] and the same for
    [cts]. *)
Definition shift (accumulatedDuration : Q) (sample : Sample.t) : Sample.t :=
  Sample.mk (Sample.dts sample + accumulatedDuration)
            (Sample.cts sample + accumulatedDuration)
            (Sample.duration sample) (Sample.is_sync sample) (Sample.data sample).

(** Lines 204-210: the loop over the samples of one clip. *)
Definition appendSamples (newTrackId : Z) (accumulatedDuration : Q)
    (samples : list Sample.t) (outputFile : MP4File.t) : MP4File.t :=
  foldl (fun file sample => addSample newTrackId (shift accumulatedDuration sample) file)
        outputFile samples.

(** Lines 199-214: the body of the loop over the clips; the state is the
    output file and [accumulatedDuration]. *)
Definition appendClip (newTrackId : Z) (url : string) (state : MP4File.t * Q)
  : M (MP4File.t * Q) :=
  let '(outputFile, accumulatedDuration) := state in
  buffer ← fetchBuffer url;
  info ← getInfo buffer;
  samples ← getSamples buffer;
  mret (appendSamples newTrackId accumulatedDuration samples outputFile,
        accumulatedDuration + Info.duration info).

Definition combineVideos (videoUrls : list string) : M string :=
  match videoUrls with
  | [] => reject EmptyInput
  | [url] => mret url
  | url0 :: _ =>
      tell [EvCreateFile];;
      firstVideoBuffer ← fetchBuffer url0;
      firstVideoInfo ← getInfo firstVideoBuffer;
      let firstTrack := Info.tracks firstVideoInfo !! 0%nat in
      let '(newTrackId, outputFile) :=
        addTrack (TrackOptions.mk firstTrack (Some 1%Z)
                    (Some (now_created env)) (Some (now_modified env)) 0%Z 0)
                 MP4File.empty in
      final ← foldM (appendClip newTrackId) videoUrls (outputFile, 0);
      let finalBuffer := getBuffer env final.1 in
      tell [EvGetBuffer final.1; EvCreateObjectURL finalBuffer];;
      mret (createObjectURL env finalBuffer)
  end.

End Engine.

(** ** Notions used to state the properties *)

(** [files'] are [files] with more samples, each satisfying [P]; the tracks
    are untouched. *)
Definition extends (P : Sample.t -> Prop) (files files' : list MP4File.t) : Prop :=
  Forall2 (fun f f' =>
             MP4File.tracks f' = MP4File.tracks f /\
             exists new, MP4File.samples f' = MP4File.samples f ++ new /\
                         Forall (fun entry => P entry.2) new)
          files files'.

(** The samples of a call that pass the test of line 125, rebased. *)
Definition keptOf (numSegments : number) (segmentDuration timescale : Q)
    (samples : list Sample.t) (s' : Sample.t) : Prop :=
  exists s index,
    s ∈ samples /\
    segmentIndexOf segmentDuration timescale s = Fin index /\
    0 <= index /\ num_lt (Fin index) numSegments = true /\
    s' = rebase (segmentStartTimeInTimescale index segmentDuration timescale) s.

(** The same over the calls of a run: the timescale is that of the first
    track with the identifier of the call. *)
Definition keptIn (tracks : list Track.t) (numSegments : number) (segmentDuration : Q)
    (calls : list (Z * list Sample.t)) (s' : Sample.t) : Prop :=
  exists trackId samples track,
    (trackId, samples) ∈ calls /\
    List.find (fun t => Z.eqb (Track.id t) trackId) tracks = Some track /\
    keptOf numSegments segmentDuration (Track.timescale track) samples s'.

(** The number of rounds of the loop of line 86. *)
Definition segmentCount (numSegments : number) : nat :=
  match numSegments with
  | Fin n => Z.to_nat (Qceiling n)
  | _ => 0
  end.

(** Every index that passes the test of line 125 is below [len]. *)
Definition fits (numSegments : number) (len : nat) : Prop :=
  forall index, 0 <= index -> num_lt (Fin index) numSegments = true ->
                (Z.to_nat (Qfloor index) < len)%nat.

Section Notions.

Context (env : Env).

(** The segment files once their tracks are added (lines 84-97). *)
Definition prepared (info : Info.t) (d : Q) : list MP4File.t * gmap Z (list Z) :=
  prepareTracks env (Info.tracks info)
    (replicate (segmentCount (numSegmentsOf info d)) MP4File.empty).

(** The segment files once every call of onSamples has been served. *)
Definition streamed (info : Info.t) (batches : list (Z * list Sample.t)) (d : Q)
  : Error + list MP4File.t :=
  foldE (onSamples (Info.tracks info) (prepared info d).2 (numSegmentsOf info d) d)
        (delivered (map Track.id (Info.tracks info)) batches)
        (prepared info d).1.

(** The calls made before the first sample is served. *)
Definition setupTrace (buffer : ArrayBuffer) (numSegments : number) : list Event :=
  [EvCreateFile; EvAppendBuffer buffer]
    ++ replicate (segmentCount numSegments) EvCreateFile
    ++ [EvCreateFile; EvAppendBuffer buffer].

(** What line 152 settles the promise with. *)
Definition settle (numSegments : number) (clipUrls : list Clip.t) : Outcome (list Clip.t) :=
  if (length clipUrls =? 0)%nat && num_lt (Fin 0) numSegments
  then Rejected ExtractionFailure
  else Resolved clipUrls.

(** The segment files whose buffer is not empty, with their index. *)
Fixpoint nonEmptyFrom (i : nat) (segmentFiles : list MP4File.t) : list (nat * MP4File.t) :=
  match segmentFiles with
  | [] => []
  | file :: rest =>
      if (0 <? length (getBuffer env file))%nat
      then (i, file) :: nonEmptyFrom (S i) rest
      else nonEmptyFrom (S i) rest
  end.

Definition clipOf (entry : nat * MP4File.t) : Clip.t :=
  Clip.mk (createObjectURL env (getBuffer env entry.2)) (clipName entry.1).

(** The ways a run on a buffer that parses ends before any sample is
    served: no track (line 18), a total duration that is not positive
    (line 78), a loop that never ends (line 86). *)
Definition earlyExit (info : Info.t) (d : Q) : option (Outcome (list Clip.t)) :=
  match Info.tracks info with
  | [] => Some (Rejected InvalidContainer_info)
  | _ :: _ =>
      if num_le (totalDurationInSeconds info) (Fin 0) then Some (Rejected InvalidDuration)
      else match numSegmentsOf info d with
           | PosInf => Some Pending
           | _ => None
           end
  end.

End Notions.

(** The files a run finalized, in the order of the calls to getBuffer. *)
Definition finalizedFiles (events : list Event) : list MP4File.t :=
  omap (fun event => match event with
                     | EvGetBuffer file => Some file
                     | _ => None
                     end) events.

(** What combineVideos takes from a clip: the info of getInfo and the
    samples of getSamples, those of the first track. *)
Definition sourceOf (env : Env) (url : string) : option (Info.t * list Sample.t) :=
  match fetch env url with
  | Resolved buffer =>
      match parse env buffer with
      | ParseReady info batches =>
          match Info.tracks info with
          | track0 :: _ =>
              Some (info, concat (map snd (delivered [Track.id track0] batches)))
          | [] => None
          end
      | _ => None
      end
  | _ => None
  end.

(** The calls made for one clip. *)
Definition sourceTrace (env : Env) (url : string) : list Event :=
  match fetch env url with
  | Resolved buffer =>
      [EvFetch url; EvCreateFile; EvAppendBuffer buffer;
       EvCreateFile; EvAppendBuffer buffer]
  | _ => [EvFetch url]
  end.

(** The samples of the sources one after the other, each source moved by the
    durations of those before it. *)
Fixpoint stitched (newTrackId : Z) (accumulatedDuration : Q)
    (sources : list (Info.t * list Sample.t)) : list (Z * Sample.t) :=
  match sources with
  | [] => []
  | (info, samples) :: rest =>
      map (fun s => (newTrackId, shift accumulatedDuration s)) samples
        ++ stitched newTrackId (accumulatedDuration + Info.duration info) rest
  end.

(** The descriptor of the one track of the output (lines 188-196). *)
Definition combinedOptions (env : Env) (firstTrack : option Track.t) : TrackOptions.t :=
  TrackOptions.mk firstTrack (Some 1%Z)
                  (Some (now_created env)) (Some (now_modified env)) 0%Z 0.

(** ** A concrete environment

    Used to run the engines on explicit inputs. *)

Module Demo.

Definition sample (dts cts : Q) : Sample.t :=
  Sample.mk dts cts 1 true [Byte.x2a].

Definition video : Track.t := Track.mk 1 1 3 20 0 0 "avc1".
Definition audio : Track.t := Track.mk 2 1 1 20 0 0 "mp4a".

(** A 20 second file at one tick per second, with one video track. *)
Definition info : Info.t := Info.mk 20 1 [video].

(** Samples at 0, 9 and 17 seconds, delivered in two calls. *)
Definition movie_calls : list (Z * list Sample.t) :=
  [(1%Z, [sample 0 0; sample 9 9]); (1%Z, [sample 17 17])].

(** A single sample, at time 0. *)
Definition still_calls : list (Z * list Sample.t) := [(1%Z, [sample 0 0])].

(** The samples of [movie_calls] and one more at 40 seconds, past the
    reported end. *)
Definition overrun_calls : list (Z * list Sample.t) :=
  [(1%Z, [sample 0 0; sample 9 9; sample 40 40]); (1%Z, [sample 17 17])].

(** A sample presented before it is decoded (a negative composition
    offset), in the second window of a cut at 8 seconds. *)
Definition early_calls : list (Z * list Sample.t) :=
  [(1%Z, [sample 0 0; sample 8 7])].

(** A file with two tracks, a sample each. *)
Definition talkie_info : Info.t := Info.mk 20 1 [video; audio].
Definition talkie_calls : list (Z * list Sample.t) :=
  [(1%Z, [sample 0 0]); (2%Z, [sample 3 3])].

Definition movie : ArrayBuffer := [Byte.x01].
Definition still : ArrayBuffer := [Byte.x02].
Definition talkie : ArrayBuffer := [Byte.x05].

Definition parse (buffer : ArrayBuffer) : Parse :=
  match buffer with
  | [Byte.x01] => ParseReady info movie_calls
  | [Byte.x02] => ParseReady info still_calls
  | [Byte.x03] => ParseReady info overrun_calls
  | [Byte.x04] => ParseReady info early_calls
  | [Byte.x05] => ParseReady talkie_info talkie_calls
  | _ => ParseError (Err "not an MP4 file")
  end.

Definition fetch (url : string) : Outcome ArrayBuffer :=
  if String.eqb url "blob:movie" then Resolved movie
  else if String.eqb url "blob:still" then Resolved still
  else if String.eqb url "blob:talkie" then Resolved talkie
  else Rejected (Err "Failed to fetch").

(** Modelled from the spec: the adapter's [addTrack(descriptor) ->
    newTrackId], which belongs to MP4Box and is not in the repository.  It
    returns the identifier asked for, that of the copied descriptor
    otherwise, and the next free one when there is none. *)
Definition addTrack_id (file : MP4File.t) (options : TrackOptions.t) : Z :=
  match TrackOptions.id options, TrackOptions.spread options with
  | Some id, _ => id
  | None, Some track => Track.id track
  | None, None => Z.of_nat (length (MP4File.tracks file)) + 1
  end.

(** Modelled from the spec: the adapter's [finalize() -> buffer], which
    belongs to MP4Box and is not in the repository.  The specification
    does not say which bytes are written.  This writer writes the payloads
    of the samples and nothing else, so the buffer of a file that holds no
    sample is empty: the case the test of line 145 is written for. *)
Definition getBuffer (file : MP4File.t) : ArrayBuffer :=
  concat (map (fun entry => Sample.data entry.2) (MP4File.samples file)).

Definition createObjectURL (buffer : ArrayBuffer) : string :=
  String.app "blob:" (NilZero.string_of_uint (Nat.to_uint (length buffer))).

Definition env : Env :=
  mkEnv fetch parse addTrack_id getBuffer createObjectURL 1700000000000 1700000000001.

End Demo.

(** The segment file of the windows [8,16) and [16,20) in the cut of
    [Demo.still]: the track, and no sample. *)
Definition idle_segment : MP4File.t :=
  MP4File.mk [(1%Z, TrackOptions.mk (Some Demo.video) None None None 0%Z 0)] [].


Definition demo_urls : list string := ["blob:talkie"; "blob:movie"]%string.

Definition demo_sources : list (Info.t * list Sample.t) :=
  [(Demo.talkie_info, [Demo.sample 0 0]);
   (Demo.info, [Demo.sample 0 0; Demo.sample 9 9; Demo.sample 17 17])].

(** ** Sentences of the specification, as it words them *)

(** A cut of a valid input that resolves returns
    ceil(totalDuration / segmentDuration) clips, the total duration being
    the reported duration over the timescale. *)
Definition returns_planned_count (env : Env) (buffer : ArrayBuffer) (d : Q) : Prop :=
  forall info batches clips,
    parse env buffer = ParseReady info batches ->
    Info.tracks info <> [] ->
    0 < Info.duration info / Info.timescale info -> 0 < d ->
    (cutVideo env buffer d).2 = Resolved clips ->
    Z.of_nat (length clips)
    = Qceiling (Info.duration info / Info.timescale info / d).

(** A segment file that received no sample is never finalized. *)
Definition never_finalizes_empty_builder (env : Env) (buffer : ArrayBuffer) (d : Q)
  : Prop :=
  forall info batches files file,
    parse env buffer = ParseReady info batches ->
    streamed env info batches d = inr files ->
    file ∈ files -> MP4File.samples file = [] ->
    ~ EvGetBuffer file ∈ (cutVideo env buffer d).1.




(** The output of a combine has as many tracks as its first source. *)
Definition mirrors_every_track (env : Env) (urls : list string) : Prop :=
  forall url0 rest buffer info batches final,
    urls = url0 :: rest ->
    fetch env url0 = Resolved buffer ->
    parse env buffer = ParseReady info batches ->
    final ∈ finalizedFiles (combineVideos env urls).1 ->
    length (MP4File.tracks final) = length (Info.tracks info).

(** ** Notions used to state the further properties *)

(** The descriptor cutVideo hands to [addTrack] for a source track
    (line 93): the track, with its sample count and duration set to zero. *)
Definition mirroredOptions (track : Track.t) : TrackOptions.t :=
  TrackOptions.mk (Some track) None None None 0%Z 0.

(** What lines 122-134 make of a sample when its segment is [i]: the rebased
    copy; nothing when the sample fails the test of line 125 or belongs to
    another segment. *)
Definition assignedTo (numSegments : number) (segmentDuration timescale : Q)
    (i : nat) (sample : Sample.t) : option Sample.t :=
  match segmentIndexOf segmentDuration timescale sample with
  | Fin index =>
      if num_le (Fin 0) (Fin index) && num_lt (Fin index) numSegments
         && (Z.to_nat (Qfloor index) =? i)%nat
      then Some (rebase (segmentStartTimeInTimescale index segmentDuration timescale)
                        sample)
      else None
  | _ => None
  end.

(** The samples of one onSamples call that go to segment [i], in the order
    of the call; none when no track has the identifier of the call. *)
Definition bucketOfCall (tracks : list Track.t) (numSegments : number)
    (segmentDuration : Q) (i : nat) (call : Z * list Sample.t) : list Sample.t :=
  match List.find (fun t => Z.eqb (Track.id t) call.1) tracks with
  | Some track =>
      omap (assignedTo numSegments segmentDuration (Track.timescale track) i) call.2
  | None => []
  end.

(** The samples of a run that go to segment [i], in delivery order. *)
Definition bucket (tracks : list Track.t) (numSegments : number)
    (segmentDuration : Q) (i : nat) (calls : list (Z * list Sample.t))
  : list Sample.t :=
  flat_map (bucketOfCall tracks numSegments segmentDuration i) calls.

(** [files'] are [files] where the file of index [i] has received the
    samples [added i], in this order, and nothing else. *)
Definition growsBy (added : nat -> list Sample.t) (files files' : list MP4File.t)
  : Prop :=
  length files' = length files /\
  forall i file',
    files' !! i = Some file' ->
    exists file,
      files !! i = Some file /\
      map snd (MP4File.samples file') = map snd (MP4File.samples file) ++ added i.

(** A record of calls in which no file is finalized and no object URL is
    created. *)
Definition producesNoOutput (events : list Event) : Prop :=
  Forall (fun event => match event with
                       | EvGetBuffer _ | EvCreateObjectURL _ => False
                       | _ => True
                       end) events.

(** The buffers a run made object URLs for, in the order of the calls. *)
Definition urlBuffers (events : list Event) : list ArrayBuffer :=
  omap (fun event => match event with
                     | EvCreateObjectURL buffer => Some buffer
                     | _ => None
                     end) events.

(** The durations reported by the first [k] sources, added up. *)
Definition durationBefore (k : nat) (sources : list (Info.t * list Sample.t)) : Q :=
  foldr (fun source total => Info.duration source.1 + total) 0 (take k sources).



(** ** A second concrete environment

    Sources with degenerate timing.  MP4Box's writer is that of [Demo]. *)

Module Replay.

(** A video track whose timescale is zero. *)
Definition frozen_track : Track.t := Track.mk 1 0 2 20 0 0 "avc1".

(** Duration 0 and timescale 0. *)
Definition void : ArrayBuffer := [Byte.x20].
(** Duration 0 at one tick per second. *)
Definition blank : ArrayBuffer := [Byte.x21].
(** 20 seconds, with [frozen_track] as only track. *)
Definition frozen : ArrayBuffer := [Byte.x22].

Definition parse (buffer : ArrayBuffer) : Parse :=
  match buffer with
  | [Byte.x20] => ParseReady (Info.mk 0 0 [Demo.video]) [(1%Z, [Demo.sample 0 0])]
  | [Byte.x21] => ParseReady (Info.mk 0 1 [Demo.video]) []
  | [Byte.x22] =>
      ParseReady (Info.mk 20 1 [frozen_track])
                 [(1%Z, [Demo.sample 0 0; Demo.sample 9 9])]
  | _ => ParseError (Err "not an MP4 file")
  end.

Definition env : Env :=
  mkEnv Demo.fetch parse Demo.addTrack_id Demo.getBuffer Demo.createObjectURL
        1700000000000 1700000000001.

End Replay.

(** ** A third concrete environment

    Sources at 25 ticks per second cut at segment durations that are not
    dyadic, where the rounding of doubles shows, and a source whose only
    sample lies past its reported end.  MP4Box's writer is that of
    [Demo]. *)

Module Rounding.

(** The doubles the literals [0.04], [0.06] and [0.31] stand for. *)
Definition d004 : Q := nearestDouble (4 # 100).
Definition d006 : Q := nearestDouble (6 # 100).
Definition d031 : Q := nearestDouble (31 # 100).

Definition track25 : Track.t := Track.mk 1 25 8 7 0 0 "avc1".

(** 3 ticks, with a sample at each of the ticks 0, 1 and 2. *)
Definition brief_info : Info.t := Info.mk 3 25 [track25].
Definition brief_calls : list (Z * list Sample.t) :=
  [(1%Z, [Demo.sample 0 0; Demo.sample 1 1; Demo.sample 2 2])].

(** 7 ticks, with a sample at each tick from 0 to the reported end. *)
Definition short_info : Info.t := Info.mk 7 25 [track25].
Definition short_calls : list (Z * list Sample.t) :=
  [(1%Z, [Demo.sample 0 0; Demo.sample 1 1; Demo.sample 2 2; Demo.sample 3 3;
          Demo.sample 4 4; Demo.sample 5 5; Demo.sample 6 6; Demo.sample 7 7])].

(** 1000 ticks, with one sample at tick 837. *)
Definition long_info : Info.t := Info.mk 1000 25 [track25].
Definition long_calls : list (Z * list Sample.t) := [(1%Z, [Demo.sample 837 837])].

(** 20 seconds at one tick per second, with one sample at 40 seconds. *)
Definition late_calls : list (Z * list Sample.t) := [(1%Z, [Demo.sample 40 40])].

(** One tick at 2^1000 ticks per second, with a sample at tick 0: a total
    duration of 2^-1000 seconds, which over a segment duration of 2^100
    seconds underflows to zero. *)
Definition faint_track : Track.t := Track.mk 1 (inject_Z (2 ^ 1000)) 1 1 0 0 "avc1".
Definition faint_info : Info.t := Info.mk 1 (inject_Z (2 ^ 1000)) [faint_track].
Definition faint_calls : list (Z * list Sample.t) := [(1%Z, [Demo.sample 0 0])].

Definition brief : ArrayBuffer := [Byte.x31].
Definition short : ArrayBuffer := [Byte.x32].
Definition long : ArrayBuffer := [Byte.x33].

Definition parse (buffer : ArrayBuffer) : Parse :=
  match buffer with
  | [Byte.x31] => ParseReady brief_info brief_calls
  | [Byte.x32] => ParseReady short_info short_calls
  | [Byte.x33] => ParseReady long_info long_calls
  | [Byte.x34] => ParseReady Demo.info late_calls
  | [Byte.x35] => ParseReady faint_info faint_calls
  | _ => ParseError (Err "not an MP4 file")
  end.

Definition env : Env :=
  mkEnv Demo.fetch parse Demo.addTrack_id Demo.getBuffer Demo.createObjectURL
        1700000000000 1700000000001.

End Rounding.


(** The segment file of index 107 of the cut of [Rounding.long] at 0.31
    seconds: the sample at tick 837, whose time over 0.31 rounds to
    107.99999999999999, is rebased to 7.75 ticks, the length of a
    segment. *)
Definition long_segment_107 : MP4File.t :=
  MP4File.mk [(1%Z, mirroredOptions Rounding.track25)]
             [(1%Z, Demo.sample (31 # 4) (31 # 4))].

(** The segment file of the window [8,16) in the cut of [Demo.movie] at 8
    seconds: the sample decoded at 9 is rebased to 1. *)
Definition second_segment : MP4File.t :=
  MP4File.mk [(1%Z, mirroredOptions Demo.video)] [(1%Z, Demo.sample 1 1)].

(** A segment file of the cut of [Replay.frozen]: the track, and no sample. *)
Definition frozen_segment : MP4File.t :=
  MP4File.mk [(1%Z, mirroredOptions Replay.frozen_track)] [].

(** The clips of the cut of [Demo.movie] at 8 seconds. *)
Definition movie_clips : list Clip.t :=
  [Clip.mk "blob:1" "clip_01.mp4"; Clip.mk "blob:1" "clip_02.mp4";
   Clip.mk "blob:1" "clip_03.mp4"].

(** ** Facts about rounding *)

Section Rounding.


Lemma pow2_pos (e : Z) : (0 <= e)%Z -> (0 < 2 ^ e)%Z.
Proof. intros. apply Z.pow_pos_nonneg; lia. Qed.

Lemma nearestEven_ge (n d a : Z) :
  (0 < d)%Z -> (a * d <= n)%Z -> (a <= nearestEven n d)%Z.
Proof.
  intros Hd Ha. unfold nearestEven.
  assert (Hq : (a <= n / d)%Z) by (apply Z.div_le_lower_bound; lia).
  destruct (2 * (n mod d) ?= d)%Z; [destruct (Z.even (n / d))| |]; lia.
Qed.

Lemma nearestEven_le (n d a : Z) :
  (0 < d)%Z -> (n <= a * d)%Z -> (nearestEven n d <= a)%Z.
Proof.
  intros Hd Ha. unfold nearestEven.
  pose proof (Z.div_mod n d ltac:(lia)) as Hdm.
  pose proof (Z.mod_pos_bound n d Hd) as Hr.
  destruct (2 * (n mod d) ?= d)%Z eqn:Hc.
  - apply Z.compare_eq in Hc. destruct (Z.even (n / d)); nia.
  - nia.
  - apply Z.compare_gt_iff in Hc. nia.
Qed.

(** Rounding to the nearest integer is monotone. *)
Lemma nearestEven_mono (n1 d1 n2 d2 : Z) :
  (0 < d1)%Z -> (0 < d2)%Z -> (n1 * d2 <= n2 * d1)%Z ->
  (nearestEven n1 d1 <= nearestEven n2 d2)%Z.
Proof.
  intros Hd1 Hd2 Hle.
  pose proof (Z.div_mod n1 d1 ltac:(lia)) as E1.
  pose proof (Z.mod_pos_bound n1 d1 Hd1) as R1.
  pose proof (Z.div_mod n2 d2 ltac:(lia)) as E2.
  pose proof (Z.mod_pos_bound n2 d2 Hd2) as R2.
  unfold nearestEven.
  set (q1 := (n1 / d1)%Z) in *. set (r1 := (n1 mod d1)%Z) in *.
  set (q2 := (n2 / d2)%Z) in *. set (r2 := (n2 mod d2)%Z) in *.
  assert (Hdd : (0 < d1 * d2)%Z) by nia.
  assert (H1 : (n1 * d2 = d1 * d2 * q1 + r1 * d2)%Z) by (rewrite E1; ring).
  assert (H2 : (n2 * d1 = d1 * d2 * q2 + r2 * d1)%Z) by (rewrite E2; ring).
  assert (Hr1 : (0 <= r1 * d2)%Z) by nia.
  assert (Hr2 : (r2 * d1 < d1 * d2)%Z) by nia.
  assert (Hq : (q1 <= q2)%Z).
  { assert (H : (d1 * d2 * q1 < d1 * d2 * (q2 + 1))%Z) by lia.
    apply Z.mul_lt_mono_pos_l in H; lia. }
  destruct (Z.eq_dec q1 q2) as [Heq|Hne].
  - rewrite <- Heq in *. assert (Hr : (r1 * d2 <= r2 * d1)%Z) by lia.
    destruct (Z.compare_spec (2 * r1) d1) as [C1|C1|C1];
      destruct (Z.compare_spec (2 * r2) d2) as [C2|C2|C2];
      destruct (Z.even q1); try lia; nia.
  - assert (Hlt : (q1 + 1 <= q2)%Z) by lia.
    destruct (2 * r1 ?= d1)%Z; destruct (2 * r2 ?= d2)%Z;
      destruct (Z.even q1); destruct (Z.even q2); lia.
Qed.

Lemma atLeastPow2_shift (j s : Z) (n d : positive) :
  (0 <= s)%Z -> (0 <= j + s)%Z ->
  atLeastPow2 j n d <-> (Zpos d * 2 ^ (j + s) <= Zpos n * 2 ^ s)%Z.
Proof.
  intros Hs Hjs. unfold atLeastPow2.
  destruct (Z.le_ge_cases 0 j) as [Hj|Hj].
  - rewrite (Z.max_r 0 j), (Z.max_l 0 (- j)) by lia.
    rewrite Z.pow_add_r by lia. change (2 ^ 0)%Z with 1%Z.
    rewrite Z.mul_1_r, Z.mul_assoc.
    apply Z.mul_le_mono_pos_r, pow2_pos, Hs.
  - rewrite (Z.max_l 0 j), (Z.max_r 0 (- j)) by lia.
    replace s with ((j + s) + - j)%Z at 2 by lia.
    rewrite (Z.pow_add_r 2 (j + s) (- j)) by lia. change (2 ^ 0)%Z with 1%Z.
    replace (Zpos n * (2 ^ (j + s) * 2 ^ (- j)))%Z
      with (Zpos n * 2 ^ (- j) * 2 ^ (j + s))%Z by ring.
    rewrite Z.mul_1_r. apply Z.mul_le_mono_pos_r, pow2_pos, Hjs.
Qed.

Lemma atLeastPow2_anti (j j' : Z) (n d : positive) :
  (j <= j')%Z -> atLeastPow2 j' n d -> atLeastPow2 j n d.
Proof.
  intros Hj H.
  set (s := (Z.abs j + Z.abs j')%Z).
  apply (atLeastPow2_shift j' s) in H; [|lia|lia].
  apply (atLeastPow2_shift j s); [lia|lia|].
  assert (Hp : (2 ^ (j + s) <= 2 ^ (j' + s))%Z) by (apply Z.pow_le_mono_r; lia).
  nia.
Qed.

Lemma atLeastPow2_mono (j : Z) (n1 d1 n2 d2 : positive) :
  (Zpos n1 * Zpos d2 <= Zpos n2 * Zpos d1)%Z ->
  atLeastPow2 j n1 d1 -> atLeastPow2 j n2 d2.
Proof.
  intros Hle H. unfold atLeastPow2 in *.
  pose proof (pow2_pos (Z.max 0 j) ltac:(lia)) as Ha.
  pose proof (pow2_pos (Z.max 0 (- j)) ltac:(lia)) as Hb.
  set (a := (2 ^ Z.max 0 j)%Z) in *. set (b := (2 ^ Z.max 0 (- j))%Z) in *.
  assert (H1 : (Zpos d1 * (Zpos d2 * a) <= Zpos d1 * (Zpos n2 * b))%Z) by nia.
  apply Z.mul_le_mono_pos_l in H1; lia.
Qed.

Lemma binade_spec (n d : positive) :
  atLeastPow2 (binade n d) n d /\ ~ atLeastPow2 (binade n d + 1) n d.
Proof.
  destruct (Z.log2_spec (Zpos n) ltac:(lia)) as [Hn1 Hn2].
  destruct (Z.log2_spec (Zpos d) ltac:(lia)) as [Hd1 Hd2].
  pose proof (Z.log2_nonneg (Zpos n)) as Hln.
  pose proof (Z.log2_nonneg (Zpos d)) as Hld.
  unfold binade.
  set (ln := Z.log2 (Zpos n)) in *. set (ld := Z.log2 (Zpos d)) in *.
  set (k := (ln - ld)%Z).
  pose proof (pow2_pos ln Hln) as Pn. pose proof (pow2_pos ld Hld) as Pd.
  assert (Hlow : atLeastPow2 (k - 1) n d).
  { apply (atLeastPow2_shift (k - 1) (ld + 1)); [lia | unfold k; lia |].
    replace (k - 1 + (ld + 1))%Z with ln by (unfold k; lia).
    replace (ld + 1)%Z with (Z.succ ld) by lia. nia. }
  assert (Hhigh : ~ atLeastPow2 (k + 1) n d).
  { intros H. apply (atLeastPow2_shift (k + 1) ld) in H; [|lia | unfold k; lia].
    replace (k + 1 + ld)%Z with (Z.succ ln) in H by (unfold k; lia). nia. }
  assert (Htest : (if (0 <=? k)%Z then (Zpos d * 2 ^ k <=? Zpos n)%Z
                   else (Zpos d <=? Zpos n * 2 ^ (- k))%Z) = true
                  <-> atLeastPow2 k n d).
  { unfold atLeastPow2. destruct (0 <=? k)%Z eqn:Hk.
    - apply Z.leb_le in Hk. rewrite (Z.max_r 0 k), (Z.max_l 0 (- k)) by lia.
      change (2 ^ 0)%Z with 1%Z. rewrite Z.leb_le. lia.
    - apply Z.leb_gt in Hk. rewrite (Z.max_l 0 k), (Z.max_r 0 (- k)) by lia.
      change (2 ^ 0)%Z with 1%Z. rewrite Z.leb_le. lia. }
  destruct (if (0 <=? k)%Z then _ else _) eqn:T.
  - split; [apply Htest; reflexivity | exact Hhigh].
  - split; [exact Hlow|]. replace (k - 1 + 1)%Z with k by lia.
    intros H. apply Htest in H. discriminate.
Qed.

Lemma binade_mono (n1 d1 n2 d2 : positive) :
  (Zpos n1 * Zpos d2 <= Zpos n2 * Zpos d1)%Z -> (binade n1 d1 <= binade n2 d2)%Z.
Proof.
  intros Hle.
  destruct (binade_spec n1 d1) as [H1 _]. destruct (binade_spec n2 d2) as [_ H2].
  destruct (Z_le_gt_dec (binade n1 d1) (binade n2 d2)) as [H|H]; [exact H|].
  exfalso. apply H2. eapply atLeastPow2_mono; [exact Hle|].
  eapply atLeastPow2_anti; [|exact H1]. lia.
Qed.

Lemma significand_ge (n d : positive) (e k : Z) :
  (e <= k)%Z -> atLeastPow2 k n d -> (2 ^ (k - e) <= significand n d e)%Z.
Proof.
  intros Hek H. unfold significand. destruct (0 <=? e)%Z eqn:He.
  - apply Z.leb_le in He. pose proof (pow2_pos e He).
    apply nearestEven_ge; [nia|].
    apply (atLeastPow2_shift k 0) in H; [|lia|lia].
    replace (k + 0)%Z with ((k - e) + e)%Z in H by lia.
    rewrite Z.pow_add_r in H by lia. change (2 ^ 0)%Z with 1%Z in H. nia.
  - apply Z.leb_gt in He.
    apply nearestEven_ge; [lia|].
    apply (atLeastPow2_shift k (- e)) in H; [|lia|lia].
    replace (k + - e)%Z with (k - e)%Z in H by lia. nia.
Qed.

Lemma significand_le (n d : positive) (e k : Z) :
  (e <= k)%Z -> ~ atLeastPow2 k n d -> (significand n d e <= 2 ^ (k - e))%Z.
Proof.
  intros Hek H. unfold significand. destruct (0 <=? e)%Z eqn:He.
  - apply Z.leb_le in He. pose proof (pow2_pos e He).
    apply nearestEven_le; [nia|].
    rewrite (atLeastPow2_shift k 0) in H by lia.
    replace (k + 0)%Z with ((k - e) + e)%Z in H by lia.
    rewrite Z.pow_add_r in H by lia. change (2 ^ 0)%Z with 1%Z in H. nia.
  - apply Z.leb_gt in He.
    apply nearestEven_le; [lia|].
    rewrite (atLeastPow2_shift k (- e)) in H by lia.
    replace (k + - e)%Z with (k - e)%Z in H by lia. nia.
Qed.

Lemma significand_mono (n1 d1 n2 d2 : positive) (e : Z) :
  (Zpos n1 * Zpos d2 <= Zpos n2 * Zpos d1)%Z ->
  (significand n1 d1 e <= significand n2 d2 e)%Z.
Proof.
  intros Hle. unfold significand. destruct (0 <=? e)%Z eqn:He.
  - apply Z.leb_le in He. pose proof (pow2_pos e He).
    apply nearestEven_mono; nia.
  - apply Z.leb_gt in He. pose proof (pow2_pos (- e) ltac:(lia)).
    apply nearestEven_mono; nia.
Qed.

Lemma scaled_mono (m1 m2 e : Z) : (m1 <= m2)%Z -> scaled m1 e <= scaled m2 e.
Proof.
  intros H. unfold scaled. destruct (0 <=? e)%Z eqn:He.
  - apply Z.leb_le in He. pose proof (pow2_pos e He). unfold Qle. simpl. nia.
  - unfold Qle. simpl. nia.
Qed.

(** [scaled 1 k] is [2^k]. *)
Lemma scaled_le_pow2 (m e k : Z) :
  (e <= k)%Z -> (m <= 2 ^ (k - e))%Z -> scaled m e <= scaled 1 k.
Proof.
  intros Hek Hm. unfold scaled.
  destruct (0 <=? e)%Z eqn:He; destruct (0 <=? k)%Z eqn:Hk;
    try apply Z.leb_le in He; try apply Z.leb_gt in He;
    try apply Z.leb_le in Hk; try apply Z.leb_gt in Hk; try lia.
  - pose proof (pow2_pos e He). unfold Qle. simpl.
    replace k with ((k - e) + e)%Z at 1 by lia. rewrite Z.pow_add_r by lia. nia.
  - pose proof (pow2_pos (- e) ltac:(lia)) as Pe. pose proof (pow2_pos k Hk) as Pk.
    unfold Qle. simpl. rewrite Z2Pos.id by exact Pe.
    replace (k - e)%Z with (k + - e)%Z in Hm by lia. rewrite Z.pow_add_r in Hm by lia.
    nia.
  - pose proof (pow2_pos (- e) ltac:(lia)) as Pe.
    pose proof (pow2_pos (- k) ltac:(lia)) as Pk.
    unfold Qle. simpl. rewrite !Z2Pos.id by assumption.
    replace (- e)%Z with ((k - e) + - k)%Z by lia. rewrite Z.pow_add_r by lia.
    pose proof (pow2_pos (k - e) ltac:(lia)). nia.
Qed.

Lemma scaled_ge_pow2 (m e k : Z) :
  (e <= k)%Z -> (2 ^ (k - e) <= m)%Z -> scaled 1 k <= scaled m e.
Proof.
  intros Hek Hm. unfold scaled.
  destruct (0 <=? e)%Z eqn:He; destruct (0 <=? k)%Z eqn:Hk;
    try apply Z.leb_le in He; try apply Z.leb_gt in He;
    try apply Z.leb_le in Hk; try apply Z.leb_gt in Hk; try lia.
  - pose proof (pow2_pos e He). unfold Qle. simpl.
    replace k with ((k - e) + e)%Z at 1 by lia. rewrite Z.pow_add_r by lia. nia.
  - pose proof (pow2_pos (- e) ltac:(lia)) as Pe. pose proof (pow2_pos k Hk) as Pk.
    unfold Qle. simpl. rewrite Z2Pos.id by exact Pe.
    replace (k - e)%Z with (k + - e)%Z in Hm by lia. rewrite Z.pow_add_r in Hm by lia.
    nia.
  - pose proof (pow2_pos (- e) ltac:(lia)) as Pe.
    pose proof (pow2_pos (- k) ltac:(lia)) as Pk.
    unfold Qle. simpl. rewrite !Z2Pos.id by assumption.
    replace (- e)%Z with ((k - e) + - k)%Z by lia. rewrite Z.pow_add_r by lia.
    pose proof (pow2_pos (k - e) ltac:(lia)). nia.
Qed.

Lemma roundPos_mono (n1 d1 n2 d2 : positive) :
  (Zpos n1 * Zpos d2 <= Zpos n2 * Zpos d1)%Z -> roundPos n1 d1 <= roundPos n2 d2.
Proof.
  intros Hle. unfold roundPos, lastPlace.
  pose proof (binade_mono _ _ _ _ Hle) as Hk.
  destruct (binade_spec n1 d1) as [_ Hup]. destruct (binade_spec n2 d2) as [Hlow _].
  set (k1 := binade n1 d1) in *. set (k2 := binade n2 d2) in *.
  destruct (Z.eq_dec (Z.max (k1 - 52) (-1074)) (Z.max (k2 - 52) (-1074))) as [E|E].
  - rewrite E. apply scaled_mono, significand_mono, Hle.
  - assert (He2 : Z.max (k2 - 52) (-1074) = (k2 - 52)%Z) by lia.
    assert (Hlt : (Z.max (k1 - 52) (-1074) < k2 - 52)%Z) by lia.
    rewrite He2. set (e1 := Z.max (k1 - 52) (-1074)) in *.
    apply Qle_trans with (scaled 1 k2).
    + apply scaled_le_pow2; [lia|]. apply significand_le; [lia|].
      intros H. apply Hup. eapply atLeastPow2_anti; [|exact H]. lia.
    + apply scaled_ge_pow2; [lia|]. apply significand_ge; [lia | exact Hlow].
Qed.

Lemma roundPos_nonneg (n d : positive) : 0 <= roundPos n d.
Proof.
  unfold roundPos. set (e := lastPlace n d).
  assert (Hm : (0 <= significand n d e)%Z).
  { unfold significand. destruct (0 <=? e)%Z eqn:He.
    - apply Z.leb_le in He. pose proof (pow2_pos e He). apply nearestEven_ge; nia.
    - apply Z.leb_gt in He. pose proof (pow2_pos (- e) ltac:(lia)).
      apply nearestEven_ge; nia. }
  unfold scaled. destruct (0 <=? e)%Z eqn:He.
  - apply Z.leb_le in He. pose proof (pow2_pos e He). unfold Qle. simpl. nia.
  - unfold Qle. simpl. lia.
Qed.

Lemma nearestDouble_mono (a b : Q) : a <= b -> nearestDouble a <= nearestDouble b.
Proof.
  intros Hab. unfold nearestDouble.
  rewrite <- (Qred_correct a), <- (Qred_correct b) in Hab.
  destruct (Qred a) as [na da]. destruct (Qred b) as [nb db].
  unfold Qle in Hab. cbn [Qnum Qden] in *.
  destruct na as [|na|na]; destruct nb as [|nb|nb]; try lia;
    rewrite !Qred_correct.
  - apply Qle_refl.
  - apply roundPos_nonneg.
  - apply roundPos_mono. lia.
  - pose proof (roundPos_nonneg na da). lra.
  - pose proof (roundPos_nonneg na da). pose proof (roundPos_nonneg nb db). lra.
  - apply Qopp_le_compat. apply roundPos_mono. lia.
Qed.


(** Rounding keeps the sign and does not cross 1. *)
Lemma nearestDouble_nonneg (q : Q) : 0 <= q -> 0 <= nearestDouble q.
Proof. intros Hq. apply (nearestDouble_mono 0 q Hq). Qed.

Lemma nearestDouble_nonpos (q : Q) : q <= 0 -> nearestDouble q <= 0.
Proof. intros Hq. apply (nearestDouble_mono q 0 Hq). Qed.


Lemma overflow_gt_1 : 1 < overflow.
Proof. reflexivity. Qed.

(** The three outcomes of an operation on doubles. *)
Lemma double_cases (q : Q) :
  (double q = Fin (nearestDouble q) /\
   - overflow < nearestDouble q /\ nearestDouble q < overflow) \/
  (double q = PosInf /\ overflow <= nearestDouble q) \/
  (double q = NegInf /\ nearestDouble q <= - overflow).
Proof.
  unfold double.
  destruct (Qle_bool overflow (nearestDouble q)) eqn:Hhi.
  - right. left. split; [reflexivity|]. apply Qle_bool_iff, Hhi.
  - destruct (Qle_bool (nearestDouble q) (- overflow)) eqn:Hlo.
    + right. right. split; [reflexivity|]. apply Qle_bool_iff, Hlo.
    + left. split; [reflexivity|].
      apply not_true_iff_false in Hhi, Hlo. rewrite Qle_bool_iff in Hhi, Hlo.
      split; apply Qnot_le_lt; assumption.
Qed.

Lemma double_Fin (q r : Q) :
  double q = Fin r -> r = nearestDouble q /\ - overflow < r /\ r < overflow.
Proof.
  destruct (double_cases q) as [(-> & H)|[(-> & _)|(-> & _)]]; try discriminate.
  intros [= <-]. auto.
Qed.


(** A result that is not positive is not above zero. *)
Lemma double_nonpos (q : Q) :
  q <= 0 ->
  double q = NegInf \/ (double q = Fin (nearestDouble q) /\ nearestDouble q <= 0).
Proof.
  intros Hq. apply nearestDouble_nonpos in Hq. pose proof overflow_gt_1 as Hov.
  destruct (double_cases q) as [(H & _)|[(_ & H)|(H & _)]]; [auto | lra | auto].
Qed.


(** [double] gives what the division, the product and the difference of
    the machine give: on the time stamps and segment durations of
    [Rounding], at a tie between two doubles, below the least normal
    double, and where the machine overflows. *)
Lemma double_agrees_with_machine :
  let time := ratio 837 25 in
  let d := ratio 31 100 in
  let start := PrimFloat.mul (PrimFloat.mul (toFloat 107 0) d) (toFloat 25 0) in
  ofFloat time = double (837 / 25) /\
  ofFloat d = Fin Rounding.d031 /\
  ofFloat (PrimFloat.div time d) =
    double (nearestDouble (837 / 25) / Rounding.d031) /\
  ofFloat start = Fin (segmentStartTimeInTimescale 107 Rounding.d031 25) /\
  ofFloat (PrimFloat.sub (toFloat 837 0) start) =
    double (837 - segmentStartTimeInTimescale 107 Rounding.d031 25) /\
  ofFloat (PrimFloat.div (ratio 7 25) (ratio 4 100)) =
    double (nearestDouble (7 / 25) / Rounding.d004) /\
  ofFloat (PrimFloat.sub (toFloat 7 0)
             (PrimFloat.mul (PrimFloat.mul (toFloat 7 0) (ratio 4 100))
                            (toFloat 25 0))) =
    double (7 - segmentStartTimeInTimescale 7 Rounding.d004 25) /\
  ofFloat (PrimFloat.div (ratio 3 25) (ratio 6 100)) =
    double (nearestDouble (3 / 25) / Rounding.d006) /\
  ofFloat (PrimFloat.mul (toFloat 9007199254740990 0) (toFloat 3 (-1))) =
    double (inject_Z 9007199254740990 * (3 # 2)) /\
  ofFloat (PrimFloat.mul (toFloat 9007199254740988 0) (toFloat 3 (-1))) =
    double (inject_Z 9007199254740988 * (3 # 2)) /\
  ofFloat (PrimFloat.div (toFloat 9007199254740991 1) (toFloat 4 0)) =
    double (inject_Z (9007199254740991 * 2) / 4) /\
  ofFloat (PrimFloat.div (toFloat 1 0) (toFloat 1 1000)) =
    double (1 / inject_Z (2 ^ 1000)) /\
  ofFloat (PrimFloat.div (toFloat 1 (-1000)) (toFloat 1 100)) =
    double (nearestDouble (1 / inject_Z (2 ^ 1000)) / inject_Z (2 ^ 100)) /\
  ofFloat (PrimFloat.div (toFloat 3 (-1074)) (toFloat 2 0)) =
    double ((3 # 1) / inject_Z (2 ^ 1074) / 2) /\
  ofFloat (PrimFloat.div (toFloat 5 (-1074)) (toFloat 2 0)) =
    double ((5 # 1) / inject_Z (2 ^ 1074) / 2) /\
  ofFloat (PrimFloat.div (toFloat 1 (-1074)) (toFloat 3 0)) =
    double ((1 # 1) / inject_Z (2 ^ 1074) / 3) /\
  ofFloat (PrimFloat.div (toFloat 9007199254740991 (-1074)) (toFloat 3 0)) =
    double (9007199254740991 / inject_Z (2 ^ 1074) / 3) /\
  ofFloat (PrimFloat.mul (toFloat 1 1000) (toFloat 1 100)) =
    double (inject_Z (2 ^ 1000) * inject_Z (2 ^ 100)) /\
  ofFloat (PrimFloat.div (PrimFloat.opp (toFloat 1 1000)) (toFloat 1 (-100))) =
    double (- inject_Z (2 ^ 1000) / (1 / inject_Z (2 ^ 100))) /\
  ofFloat (PrimFloat.mul (toFloat 9007199254740991 971)
                         (toFloat 9007199254740991 (-52))) =
    double (inject_Z (9007199254740991 * 2 ^ 971) *
            (9007199254740991 / inject_Z (2 ^ 52))).
Proof. vm_compute. repeat split. Qed.

End Rounding.

(** ** Facts about numbers *)

Section Numbers.

Lemma Qltb_true (a b : Q) : Qltb a b = true <-> a < b.
Proof.
  unfold Qltb. rewrite negb_true_iff, <- not_true_iff_false, Qle_bool_iff.
  split; [apply Qnot_le_lt | apply Qlt_not_le].
Qed.

Lemma Qltb_false (a b : Q) : Qltb a b = false <-> b <= a.
Proof.
  unfold Qltb. rewrite negb_false_iff, Qle_bool_iff. reflexivity.
Qed.

Lemma Qeq_bool_false (a b : Q) : Qeq_bool a b = false <-> ~ a == b.
Proof.
  rewrite <- not_true_iff_false, Qeq_bool_iff. reflexivity.
Qed.

(** A quotient is finite only for a finite dividend and a divisor other
    than zero. *)
Lemma num_div_Fin (a : number) (b q : Q) :
  num_div a b = Fin q -> exists x, a = Fin x /\ ~ b == 0 /\ q = nearestDouble (x / b).
Proof.
  destruct a as [x| | |]; cbn [num_div].
  - destruct (Qeq_bool b 0) eqn:Hb.
    + destruct (Qltb 0 x); [discriminate|]. destruct (Qltb x 0); discriminate.
    + intros H. apply double_Fin in H as [-> _].
      exists x. split; [reflexivity|]. split; [|reflexivity].
      apply Qeq_bool_false, Hb.
  - destruct (Qltb b 0); discriminate.
  - destruct (Qltb b 0); discriminate.
  - discriminate.
Qed.

Lemma num_div_Fin_eq (x b : Q) :
  ~ b == 0 -> num_div (Fin x) b = double (x / b).
Proof.
  intros Hb. cbn [num_div]. apply Qeq_bool_false in Hb. rewrite Hb. reflexivity.
Qed.

Lemma Math_floor_Fin (a : number) (q : Q) :
  Math_floor a = Fin q -> exists x, a = Fin x /\ q = inject_Z (Qfloor x).
Proof.
  destruct a; simpl; try discriminate. intros [= <-]. eauto.
Qed.

Lemma Math_ceil_Fin (a : number) (q : Q) :
  Math_ceil a = Fin q -> exists x, a = Fin x /\ q = inject_Z (Qceiling x).
Proof.
  destruct a; simpl; try discriminate. intros [= <-]. eauto.
Qed.

Lemma inject_Z_lt (a b : Z) : inject_Z a < inject_Z b <-> (a < b)%Z.
Proof. unfold Qlt; simpl. lia. Qed.

Lemma inject_Z_le (a b : Z) : inject_Z a <= inject_Z b <-> (a <= b)%Z.
Proof. unfold Qle; simpl. lia. Qed.


Lemma Qceiling_inject_Z (z : Z) : Qceiling (inject_Z z) = z.
Proof. apply Qceiling_Z. Qed.


End Numbers.

(** ** Facts about the placement of one sample *)

Section Placement.

Lemma segmentIndexOf_Fin (d ts index : Q) (s : Sample.t) :
  segmentIndexOf d ts s = Fin index ->
  ~ ts == 0 /\ ~ d == 0 /\
  index = inject_Z (Qfloor (nearestDouble (nearestDouble (Sample.dts s / ts) / d))).
Proof.
  unfold segmentIndexOf. intros H.
  apply Math_floor_Fin in H as (x & H & ->).
  apply num_div_Fin in H as (y & H & Hd & ->).
  apply num_div_Fin in H as (z & [= <-] & Hts & ->).
  auto.
Qed.







End Placement.

(** ** The segment files during a cut *)

Section Extends.

Lemma extends_refl P files : extends P files files.
Proof.
  apply Forall_Forall2_diag, Forall_forall. intros f _. split; [reflexivity|].
  exists []. rewrite app_nil_r. auto.
Qed.

Lemma extends_trans P files1 files2 files3 :
  extends P files1 files2 -> extends P files2 files3 -> extends P files1 files3.
Proof.
  unfold extends. intros H12 H23.
  eapply Forall2_trans; [| exact H12 | exact H23].
  intros f1 f2 f3 (Ht1 & new1 & Hs1 & HP1) (Ht2 & new2 & Hs2 & HP2).
  split; [congruence|]. exists (new1 ++ new2).
  rewrite Hs2, Hs1, app_assoc. split; [reflexivity|]. apply Forall_app; auto.
Qed.

Lemma extends_weaken (P P' : Sample.t -> Prop) files files' :
  (forall s, P s -> P' s) -> extends P files files' -> extends P' files files'.
Proof.
  intros HPP' Hext. unfold extends. eapply Forall2_impl; [exact Hext|].
  intros f f' (Ht & new & Hs & HP). split; [assumption|]. exists new.
  split; [assumption|]. eapply Forall_impl; [exact HP|]. simpl. auto.
Qed.

Lemma extends_length P files files' :
  extends P files files' -> length files' = length files.
Proof. intros H. symmetry. eapply Forall2_length, H. Qed.

Lemma extends_insert (P : Sample.t -> Prop) files i f trackId s :
  files !! i = Some f -> P s ->
  extends P files (<[i := addSample trackId s f]> files).
Proof.
  intros Hi HP. unfold extends.
  rewrite <- (list_insert_id files i f Hi) at 1.
  apply Forall2_insert; [apply extends_refl|].
  split; [reflexivity|]. exists [(trackId, s)]. split; [reflexivity|].
  constructor; [exact HP | constructor].
Qed.

(** Started from files without samples, every sample present satisfies [P]. *)
Lemma extends_all P files files' :
  Forall (fun f => MP4File.samples f = []) files ->
  extends P files files' ->
  Forall (fun f' => Forall (fun entry => P entry.2) (MP4File.samples f')) files'.
Proof.
  intros Hempty Hext. induction Hext as [|f f' files files' Hff' _ IH].
  - constructor.
  - apply Forall_cons in Hempty as [Hf Hfs]. constructor; [|apply IH, Hfs].
    destruct Hff' as (_ & new & -> & HP). rewrite Hf. exact HP.
Qed.

End Extends.

Section Distribution.

Context (env : Env).



(** What one round of the loop of line 120 can do. *)
Lemma placeSample_extends numSegments d ts ids s files files' :
  placeSample numSegments d ts ids s files = inr files' ->
  extends (keptOf numSegments d ts [s]) files files'.
Proof.
  unfold placeSample.
  destruct (segmentIndexOf d ts s) as [index| | |] eqn:Hidx;
    try (intros [= <-]; apply extends_refl).
  destruct (num_le (Fin 0) (Fin index) && num_lt (Fin index) numSegments) eqn:Htest;
    [|intros [= <-]; apply extends_refl].
  apply andb_true_iff in Htest as [Hge Hlt].
  destruct (files !! Z.to_nat (Qfloor index)) as [f|] eqn:Hf; [|discriminate].
  destruct (ids !! Z.to_nat (Qfloor index)) as [id|]; [|discriminate].
  intros [= <-]. apply extends_insert; [exact Hf|].
  exists s, index. repeat split; try assumption.
  - apply list_elem_of_singleton. reflexivity.
  - simpl in Hge. apply Qle_bool_iff in Hge. exact Hge.
Qed.

(** With enough files and identifiers, no round throws. *)
Lemma placeSample_ok numSegments d ts ids s files :
  fits numSegments (length files) -> length ids = length files ->
  exists files', placeSample numSegments d ts ids s files = inr files'.
Proof.
  intros Hfits Hlen. unfold placeSample.
  destruct (segmentIndexOf d ts s) as [index| | |] eqn:Hidx; eauto.
  destruct (num_le (Fin 0) (Fin index) && num_lt (Fin index) numSegments) eqn:Htest;
    eauto.
  apply andb_true_iff in Htest as [Hge Hlt].
  simpl in Hge. apply Qle_bool_iff in Hge.
  specialize (Hfits index Hge Hlt).
  destruct (lookup_lt_is_Some_2 files _ Hfits) as [f ->].
  rewrite <- Hlen in Hfits.
  destruct (lookup_lt_is_Some_2 ids _ Hfits) as [id ->].
  eauto.
Qed.

Lemma keptOf_mono numSegments d ts (l1 l2 : list Sample.t) s' :
  (forall s, s ∈ l1 -> s ∈ l2) ->
  keptOf numSegments d ts l1 s' -> keptOf numSegments d ts l2 s'.
Proof.
  intros Hsub (s & index & Hin & H). exists s, index. split; auto.
Qed.

Lemma placeSamples_extends numSegments d ts ids samples files files' :
  foldE (placeSample numSegments d ts ids) samples files = inr files' ->
  extends (keptOf numSegments d ts samples) files files'.
Proof.
  revert files. induction samples as [|s samples IH]; intros files; simpl.
  - intros [= <-]. apply extends_refl.
  - destruct (placeSample numSegments d ts ids s files) as [e|files1] eqn:H1;
      [discriminate|].
    intros H2. eapply extends_trans.
    + eapply extends_weaken; [|eapply placeSample_extends, H1].
      intros s'. apply keptOf_mono. intros x Hx.
      apply list_elem_of_singleton in Hx as ->. left.
    + eapply extends_weaken; [|eapply IH, H2].
      intros s'. apply keptOf_mono. intros x Hx. right. exact Hx.
Qed.

Lemma placeSamples_ok numSegments d ts ids samples files :
  fits numSegments (length files) -> length ids = length files ->
  exists files', foldE (placeSample numSegments d ts ids) samples files = inr files'.
Proof.
  revert files. induction samples as [|s samples IH]; intros files Hfits Hlen; simpl.
  - eauto.
  - destruct (placeSample_ok numSegments d ts ids s files Hfits Hlen) as [files1 H1].
    rewrite H1.
    apply placeSample_extends, extends_length in H1 as Hl.
    apply IH; rewrite Hl; assumption.
Qed.

Lemma onSamples_extends tracks (trackIdMap : gmap Z (list Z)) numSegments d call files files' :
  onSamples tracks trackIdMap numSegments d call files = inr files' ->
  extends (keptIn tracks numSegments d [call]) files files'.
Proof.
  unfold onSamples. destruct call as [trackId samples].
  destruct (List.find _ tracks) as [track|] eqn:Hfind;
    [|intros [= <-]; apply extends_refl].
  destruct (trackIdMap !! trackId) as [ids|];
    [|intros [= <-]; apply extends_refl].
  intros H. eapply extends_weaken; [|eapply placeSamples_extends, H].
  intros s' Hs'. exists trackId, samples, track.
  split; [apply list_elem_of_singleton; reflexivity|]. auto.
Qed.

Lemma onSamples_ok tracks (trackIdMap : gmap Z (list Z)) numSegments d call files :
  fits numSegments (length files) ->
  (forall id ids, trackIdMap !! id = Some ids -> length ids = length files) ->
  exists files', onSamples tracks trackIdMap numSegments d call files = inr files'.
Proof.
  intros Hfits Hmap. unfold onSamples. destruct call as [trackId samples].
  destruct (List.find _ tracks) as [track|]; eauto.
  destruct (trackIdMap !! trackId) as [ids|] eqn:Hids; eauto.
  apply placeSamples_ok; eauto.
Qed.

Lemma keptIn_mono tracks numSegments d (l1 l2 : list (Z * list Sample.t)) s' :
  (forall c, c ∈ l1 -> c ∈ l2) ->
  keptIn tracks numSegments d l1 s' -> keptIn tracks numSegments d l2 s'.
Proof.
  intros Hsub (trackId & samples & track & Hin & H).
  exists trackId, samples, track. split; auto.
Qed.

(** The calls of a whole run. *)
Lemma stream_extends tracks (trackIdMap : gmap Z (list Z)) numSegments d calls files files' :
  foldE (onSamples tracks trackIdMap numSegments d) calls files = inr files' ->
  extends (keptIn tracks numSegments d calls) files files'.
Proof.
  revert files. induction calls as [|call calls IH]; intros files; simpl.
  - intros [= <-]. apply extends_refl.
  - destruct (onSamples tracks trackIdMap numSegments d call files) as [e|files1] eqn:H1;
      [discriminate|].
    intros H2. eapply extends_trans.
    + eapply extends_weaken; [|eapply onSamples_extends, H1].
      intros s'. apply keptIn_mono. intros x Hx.
      apply list_elem_of_singleton in Hx as ->. left.
    + eapply extends_weaken; [|eapply IH, H2].
      intros s'. apply keptIn_mono. intros x Hx. right. exact Hx.
Qed.

Lemma stream_ok tracks (trackIdMap : gmap Z (list Z)) numSegments d calls files :
  fits numSegments (length files) ->
  (forall id ids, trackIdMap !! id = Some ids -> length ids = length files) ->
  exists files', foldE (onSamples tracks trackIdMap numSegments d) calls files = inr files'.
Proof.
  revert files. induction calls as [|call calls IH]; intros files Hfits Hmap; simpl.
  - eauto.
  - destruct (onSamples_ok tracks trackIdMap numSegments d call files Hfits Hmap)
      as [files1 H1].
    rewrite H1.
    apply onSamples_extends, extends_length in H1 as Hl.
    apply IH; [rewrite Hl; assumption|].
    intros id ids Hids. rewrite Hl. eauto.
Qed.

End Distribution.

(** ** The run of cutVideo on a buffer that parses *)

Section CutRun.

Context (env : Env).

Lemma addTrackToSegments_spec track files :
  length (addTrackToSegments env track files).1 = length files /\
  length (addTrackToSegments env track files).2 = length files /\
  map MP4File.samples (addTrackToSegments env track files).2
  = map MP4File.samples files.
Proof.
  unfold addTrackToSegments. simpl. rewrite !length_map.
  repeat split. rewrite <- !list_fmap_compose.
  apply list_fmap_ext. intros i f _. reflexivity.
Qed.

Lemma prepareTracks_from tracks files (trackIdMap : gmap Z (list Z)) :
  (forall id ids, trackIdMap !! id = Some ids -> length ids = length files) ->
  let r := foldl (prepareTrack env) (files, trackIdMap) tracks in
  length r.1 = length files /\
  map MP4File.samples r.1 = map MP4File.samples files /\
  (forall id ids, r.2 !! id = Some ids -> length ids = length files).
Proof.
  revert files trackIdMap.
  induction tracks as [|track tracks IH]; intros files trackIdMap Hmap;
    cbn [foldl].
  - auto.
  - destruct (addTrackToSegments_spec track files) as (Hl1 & Hl2 & Hs).
    unfold prepareTrack at 2 4 6.
    destruct (addTrackToSegments env track files) as [newTrackIds files'] eqn:E.
    cbn [fst snd] in Hl1, Hl2, Hs.
    specialize (IH files' (<[Track.id track := newTrackIds]> trackIdMap)).
    cbv zeta in IH. rewrite Hl2, Hs in IH. apply IH.
    intros id ids. rewrite lookup_insert. case_decide.
    + intros [= <-]. exact Hl1.
    + apply Hmap.
Qed.

Lemma prepareTracks_spec tracks files :
  length (prepareTracks env tracks files).1 = length files /\
  map MP4File.samples (prepareTracks env tracks files).1 = map MP4File.samples files /\
  (forall id ids, (prepareTracks env tracks files).2 !! id = Some ids ->
                  length ids = length files).
Proof.
  apply prepareTracks_from. intros id ids. rewrite lookup_empty. discriminate.
Qed.

Lemma fits_segmentCount numSegments :
  numSegments <> PosInf -> fits numSegments (segmentCount numSegments).
Proof.
  intros Hinf index Hge Hlt. destruct numSegments as [n| | |]; simpl in *;
    try discriminate; [|congruence].
  apply Qltb_true in Hlt.
  pose proof (Qfloor_le index) as Hfl. pose proof (Qle_ceiling n) as Hce.
  assert (Hz : (Qfloor index < Qceiling n)%Z)
    by (apply inject_Z_lt; lra).
  assert (H0 : (0 <= Qfloor index)%Z).
  { change 0%Z with (Qfloor 0). apply Qfloor_resp_le, Hge. }
  lia.
Qed.

Lemma prepared_length info d :
  length (prepared env info d).1 = segmentCount (numSegmentsOf info d).
Proof.
  unfold prepared.
  destruct (prepareTracks_spec (Info.tracks info)
              (replicate (segmentCount (numSegmentsOf info d)) MP4File.empty))
    as (Hl & _ & _).
  rewrite Hl. apply length_replicate.
Qed.

Lemma prepared_no_samples info d :
  Forall (fun f => MP4File.samples f = []) (prepared env info d).1.
Proof.
  unfold prepared.
  destruct (prepareTracks_spec (Info.tracks info)
              (replicate (segmentCount (numSegmentsOf info d)) MP4File.empty))
    as (_ & Hs & _).
  apply Forall_forall. intros f Hf.
  assert (Hin : MP4File.samples f ∈ map MP4File.samples
     (prepareTracks env (Info.tracks info)
        (replicate (segmentCount (numSegmentsOf info d)) MP4File.empty)).1)
    by (apply list_elem_of_fmap; eauto).
  rewrite Hs in Hin. apply list_elem_of_fmap in Hin as (f0 & -> & Hf0).
  apply elem_of_replicate in Hf0 as [-> _]. reflexivity.
Qed.

(** No call of onSamples throws. *)
Lemma streamed_ok info batches d :
  numSegmentsOf info d <> PosInf ->
  exists files, streamed env info batches d = inr files.
Proof.
  intros Hinf. unfold streamed. apply stream_ok.
  - rewrite prepared_length. apply fits_segmentCount, Hinf.
  - intros id ids Hids. rewrite prepared_length. unfold prepared in Hids.
    destruct (prepareTracks_spec (Info.tracks info)
                (replicate (segmentCount (numSegmentsOf info d)) MP4File.empty))
      as (_ & _ & Hm).
    rewrite (Hm id ids Hids). apply length_replicate.
Qed.

Lemma streamed_length info batches d files :
  streamed env info batches d = inr files ->
  length files = segmentCount (numSegmentsOf info d).
Proof.
  unfold streamed. intros H. apply stream_extends, extends_length in H.
  rewrite H. apply prepared_length.
Qed.

(** Every sample of a segment file passed the test of line 125. *)
Lemma streamed_kept info batches d files :
  streamed env info batches d = inr files ->
  Forall (fun f =>
            Forall (fun entry =>
                      keptIn (Info.tracks info) (numSegmentsOf info d) d
                             (delivered (map Track.id (Info.tracks info)) batches)
                             entry.2)
                   (MP4File.samples f))
         files.
Proof.
  unfold streamed. intros H. apply stream_extends in H.
  eapply extends_all; [apply prepared_no_samples | exact H].
Qed.

End CutRun.

(** ** Finalization (lines 141-157) *)

Section Finalize.

Context (env : Env).

Lemma finalizeFrom_clips i files :
  (finalizeFrom env i files).2 = map (clipOf env) (nonEmptyFrom env i files).
Proof.
  revert i. induction files as [|f files IH]; intros i; simpl; [reflexivity|].
  specialize (IH (S i)). destruct (finalizeFrom env (S i) files) as [events clips].
  simpl in IH. destruct (0 <? length (getBuffer env f))%nat; simpl;
    rewrite IH; reflexivity.
Qed.

(** Every segment file is finalized, whatever it holds. *)
Lemma finalizeFrom_events i files f :
  EvGetBuffer f ∈ (finalizeFrom env i files).1 <-> f ∈ files.
Proof.
  revert i. induction files as [|f0 files IH]; intros i; simpl.
  - split; intros H; inversion H.
  - specialize (IH (S i)). destruct (finalizeFrom env (S i) files) as [events clips].
    simpl in IH. rewrite elem_of_cons, <- IH.
    destruct (0 <? length (getBuffer env f0))%nat; simpl;
      rewrite !elem_of_cons; split.
    + intros [[= ->]|[[=]|H]]; auto.
    + intros [->|H]; auto.
    + intros [[= ->]|H]; auto.
    + intros [->|H]; auto.
Qed.

Lemma nonEmptyFrom_spec i files j f :
  (j, f) ∈ nonEmptyFrom env i files <->
  (i <= j)%nat /\ files !! (j - i)%nat = Some f /\ (0 < length (getBuffer env f))%nat.
Proof.
  revert i. induction files as [|f0 files IH]; intros i; simpl.
  - split; [intros H; inversion H | intros (_ & [=] & _)].
  - assert (Hstep : (j, f) ∈ nonEmptyFrom env (S i) files <->
                    (i < j)%nat /\ files !! (j - S i)%nat = Some f /\
                    (0 < length (getBuffer env f))%nat)
      by (rewrite IH; reflexivity).
    assert (Hshift : (i < j)%nat -> (j - i)%nat = S (j - S i)) by lia.
    destruct (0 <? length (getBuffer env f0))%nat eqn:Hne.
    + apply Nat.ltb_lt in Hne. rewrite elem_of_cons, Hstep. split.
      * intros [[= -> ->]|(Hlt & Hf & Hlen)].
        -- rewrite Nat.sub_diag. simpl. auto.
        -- rewrite (Hshift Hlt). simpl. split; [lia|auto].
      * intros (Hle & Hf & Hlen). destruct (decide (i = j)) as [->|Hne'].
        -- rewrite Nat.sub_diag in Hf. simpl in Hf. injection Hf as ->. auto.
        -- right. assert (Hlt : (i < j)%nat) by lia.
           rewrite (Hshift Hlt) in Hf. simpl in Hf. auto.
    + apply Nat.ltb_ge in Hne. rewrite Hstep. split.
      * intros (Hlt & Hf & Hlen). rewrite (Hshift Hlt). simpl. split; [lia|auto].
      * intros (Hle & Hf & Hlen). destruct (decide (i = j)) as [->|Hne'].
        -- rewrite Nat.sub_diag in Hf. simpl in Hf. injection Hf as ->. lia.
        -- assert (Hlt : (i < j)%nat) by lia.
           rewrite (Hshift Hlt) in Hf. simpl in Hf. auto.
Qed.

(** The entries come in strictly ascending index order. *)
Lemma nonEmptyFrom_sorted i files :
  StronglySorted lt (map fst (nonEmptyFrom env i files)).
Proof.
  revert i. induction files as [|f0 files IH]; intros i; simpl.
  - constructor.
  - destruct (0 <? length (getBuffer env f0))%nat; [|apply IH].
    simpl. constructor; [apply IH|].
    apply Forall_forall. intros j Hj.
    apply list_elem_of_fmap in Hj as ([j' f] & -> & Hin).
    apply nonEmptyFrom_spec in Hin as (Hlt & _). simpl. lia.
Qed.

Lemma nonEmptyFrom_length i files :
  (length (nonEmptyFrom env i files) <= length files)%nat.
Proof.
  revert i. induction files as [|f0 files IH]; intros i; simpl; [lia|].
  specialize (IH (S i)).
  destruct (0 <? length (getBuffer env f0))%nat; simpl; lia.
Qed.

Lemma finalizedFiles_finalizeFrom i files :
  finalizedFiles (finalizeFrom env i files).1 = files.
Proof.
  revert i. induction files as [|f files IH]; intros i; simpl; [reflexivity|].
  specialize (IH (S i)). destruct (finalizeFrom env (S i) files) as [events clips].
  simpl in IH. destruct (0 <? length (getBuffer env f))%nat; simpl;
    unfold finalizedFiles in *; simpl; rewrite IH; reflexivity.
Qed.

End Finalize.

Section CutOutcome.

Context (env : Env).

Lemma getInfo_ready buffer info batches :
  parse env buffer = ParseReady info batches -> Info.tracks info <> [] ->
  getInfo env buffer = ([EvCreateFile; EvAppendBuffer buffer], Resolved info).
Proof.
  intros Hparse Htracks. unfold getInfo. rewrite Hparse.
  destruct (Info.tracks info); [congruence|]. reflexivity.
Qed.

Lemma createSegmentFiles_run numSegments :
  numSegments <> PosInf ->
  createSegmentFiles numSegments
  = (replicate (segmentCount numSegments) EvCreateFile,
     Resolved (replicate (segmentCount numSegments) MP4File.empty)).
Proof.
  intros Hinf. destruct numSegments; try reflexivity; [|congruence].
  unfold createSegmentFiles, segmentCount, mbind, M_bind, tell, mret, M_ret.
  rewrite app_nil_r. reflexivity.
Qed.

Lemma onFlush_run numSegments files :
  onFlush env numSegments files
  = ((finalizeFrom env 0 files).1, settle numSegments (finalizeFrom env 0 files).2).
Proof.
  unfold onFlush, settle. destruct (finalizeFrom env 0 files) as [events clips].
  unfold mbind, M_bind, tell, reject, mret, M_ret. simpl fst. simpl snd.
  destruct ((length clips =? 0)%nat && num_lt (Fin 0) numSegments);
    rewrite app_nil_r; reflexivity.
Qed.

(** The run of cutVideo on a buffer that parses, when the loop of line 86
    ends: the calls made, then the finalization of the streamed files. *)
Lemma cutVideo_ready buffer d info batches :
  parse env buffer = ParseReady info batches ->
  Info.tracks info <> [] ->
  num_le (totalDurationInSeconds info) (Fin 0) = false ->
  numSegmentsOf info d <> PosInf ->
  exists files,
    streamed env info batches d = inr files /\
    cutVideo env buffer d =
      (setupTrace buffer (numSegmentsOf info d) ++ (finalizeFrom env 0 files).1,
       settle (numSegmentsOf info d) (finalizeFrom env 0 files).2).
Proof.
  intros Hparse Htracks Hdur Hinf.
  destruct (streamed_ok env info batches d Hinf) as [files Hfiles].
  exists files. split; [exact Hfiles|].
  unfold cutVideo. rewrite (getInfo_ready _ _ _ Hparse Htracks).
  unfold mbind at 1, M_bind at 1. rewrite Hdur.
  unfold streamed, prepared in Hfiles.
  rewrite (createSegmentFiles_run _ Hinf).
  unfold mbind at 1, M_bind at 1.
  destruct (prepareTracks env (Info.tracks info)
              (replicate (segmentCount (numSegmentsOf info d)) MP4File.empty))
    as [files0 trackIdMap].
  cbn [fst snd] in Hfiles.
  unfold streamMainFile. rewrite Hparse, Hfiles, onFlush_run.
  unfold mbind, M_bind, tell, setupTrace.
  rewrite <- !app_assoc. reflexivity.
Qed.

End CutOutcome.

(** An event that is none of the listed ones. *)
Ltac absurd_event H :=
  repeat (apply elem_of_cons in H as [H|H]; [discriminate H|]);
  apply elem_of_nil in H; contradiction.

Section CutCases.

Context (env : Env).

Lemma cutVideo_early buffer d info batches o :
  parse env buffer = ParseReady info batches ->
  earlyExit info d = Some o ->
  cutVideo env buffer d = ([EvCreateFile; EvAppendBuffer buffer], o).
Proof.
  intros Hparse. unfold earlyExit, cutVideo, getInfo. rewrite Hparse.
  destruct (Info.tracks info) as [|track tracks]; [intros [= <-]; reflexivity|].
  unfold mbind, M_bind, tell, mret, M_ret, reject. simpl app.
  destruct (num_le (totalDurationInSeconds info) (Fin 0));
    [intros [= <-]; reflexivity|].
  destruct (numSegmentsOf info d); try discriminate.
  intros [= <-]. reflexivity.
Qed.

Lemma earlyExit_None info d :
  earlyExit info d = None ->
  Info.tracks info <> [] /\
  num_le (totalDurationInSeconds info) (Fin 0) = false /\
  numSegmentsOf info d <> PosInf.
Proof.
  unfold earlyExit. destruct (Info.tracks info); [discriminate|].
  destruct (num_le (totalDurationInSeconds info) (Fin 0)); [discriminate|].
  destruct (numSegmentsOf info d); try discriminate; repeat split; discriminate.
Qed.

Lemma cutVideo_unparsed buffer d :
  (forall info batches, parse env buffer <> ParseReady info batches) ->
  (cutVideo env buffer d).1 = [EvCreateFile; EvAppendBuffer buffer] /\
  ((cutVideo env buffer d).2 = Pending \/
   exists e, parse env buffer = ParseError e /\ (cutVideo env buffer d).2 = Rejected e).
Proof.
  intros Hparse. unfold cutVideo, getInfo.
  destruct (parse env buffer) as [e|info batches|] eqn:E.
  - split; [reflexivity|]. right. exists e. auto.
  - exfalso. eapply Hparse. reflexivity.
  - split; [reflexivity|]. left. reflexivity.
Qed.

(** A file is finalized only in a run that got past every early exit, and
    is then one of the streamed segment files. *)
Lemma cutVideo_finalized buffer d file :
  EvGetBuffer file ∈ (cutVideo env buffer d).1 ->
  exists info batches files,
    parse env buffer = ParseReady info batches /\
    earlyExit info d = None /\
    streamed env info batches d = inr files /\
    file ∈ files.
Proof.
  intros Hin. destruct (parse env buffer) as [e|info batches|] eqn:Hparse.
  - destruct (cutVideo_unparsed buffer d) as [Htr _]; [congruence|].
    rewrite Htr in Hin. absurd_event Hin.
  - destruct (earlyExit info d) as [o|] eqn:Hearly.
    + rewrite (cutVideo_early _ _ _ _ _ Hparse Hearly) in Hin. absurd_event Hin.
    + exists info, batches.
      destruct (earlyExit_None _ _ Hearly) as (Htracks & Hdur & Hinf).
      destruct (cutVideo_ready env buffer d info batches Hparse Htracks Hdur Hinf)
        as (files & Hfiles & Hrun).
      exists files. repeat split; try assumption.
      rewrite Hrun in Hin. cbn [fst] in Hin.
      apply elem_of_app in Hin as [Hin|Hin].
      * unfold setupTrace in Hin. rewrite !elem_of_app in Hin.
        destruct Hin as [Hin|[Hin|Hin]].
        -- absurd_event Hin.
        -- apply elem_of_replicate in Hin as [[=] _].
        -- absurd_event Hin.
      * apply finalizeFrom_events in Hin. exact Hin.
  - destruct (cutVideo_unparsed buffer d) as [Htr _]; [congruence|].
    rewrite Htr in Hin. absurd_event Hin.
Qed.

End CutCases.

(** ** The segment plan *)

Section Plan.

Lemma numSegmentsOf_quotient info d t :
  totalDurationInSeconds info = Fin t -> ~ d == 0 ->
  numSegmentsOf info d = Math_ceil (double (t / d)).
Proof.
  intros Ht Hd. unfold numSegmentsOf. rewrite Ht, (num_div_Fin_eq _ _ Hd).
  reflexivity.
Qed.

(** A finite number of segments is the ceiling of the rounded quotient. *)
Lemma numSegmentsOf_Fin info d n :
  numSegmentsOf info d = Fin n ->
  exists t,
    totalDurationInSeconds info = Fin t /\ ~ d == 0 /\
    n = inject_Z (Qceiling (nearestDouble (t / d))).
Proof.
  unfold numSegmentsOf. intros HN.
  apply Math_ceil_Fin in HN as (x & HN & ->).
  apply num_div_Fin in HN as (t & Ht & Hd & ->).
  exists t. auto.
Qed.

Lemma segmentCount_integer (c : Z) :
  segmentCount (Fin (inject_Z c)) = Z.to_nat c.
Proof. simpl. rewrite Qceiling_inject_Z. reflexivity. Qed.

Lemma Qdiv_pos (t d : Q) : 0 < t -> 0 < d -> 0 < t / d.
Proof.
  intros Ht Hd. apply Qlt_shift_div_l; [exact Hd|]. lra.
Qed.

Lemma Qdiv_neg (t d : Q) : 0 < t -> d < 0 -> t / d < 0.
Proof.
  intros Ht Hd.
  assert (Hd' : 0 < - d) by lra.
  pose proof (Qdiv_pos t (- d) Ht Hd') as H.
  assert (Hd0 : ~ d == 0) by (intros E0; rewrite E0 in Hd; discriminate).
  assert (E : t / - d == - (t / d)) by (field; exact Hd0).
  rewrite E in H. lra.
Qed.

Lemma Qceiling_pos (x : Q) : 0 < x -> (1 <= Qceiling x)%Z.
Proof.
  intros Hx. pose proof (Qle_ceiling x) as H.
  assert (H0 : inject_Z 0 < inject_Z (Qceiling x))
    by (eapply Qlt_le_trans; [exact Hx | exact H]).
  apply -> inject_Z_lt in H0. revert H0. generalize (Qceiling x). lia.
Qed.

Lemma Qceiling_nonpos (x : Q) : x <= 0 -> (Qceiling x <= 0)%Z.
Proof.
  intros Hx. change 0%Z with (Qceiling 0). apply Qceiling_resp_le, Hx.
Qed.





End Plan.

(** ** Properties of cutVideo *)

Section CutProperties.

Context (env : Env).

Lemma finalizedFiles_setup buffer numSegments events :
  finalizedFiles (setupTrace buffer numSegments ++ events) = finalizedFiles events.
Proof.
  unfold finalizedFiles, setupTrace. rewrite !omap_app. simpl.
  rewrite app_nil_r.
  induction (segmentCount numSegments) as [|n IH]; simpl; auto.
Qed.



(** C9. On a source that parses, has a track and a positive total duration,
    a negative segment duration makes numSegments non-positive, no segment
    file is created, and the promise resolves with the empty list: the only
    calls made are the two parses of the buffer. *)
Theorem cut_negative_duration_resolves_empty buffer d info batches :
  parse env buffer = ParseReady info batches ->
  Info.tracks info <> [] ->
  num_lt (Fin 0) (totalDurationInSeconds info) = true ->
  d < 0 ->
  num_lt (Fin 0) (numSegmentsOf info d) = false /\
  segmentCount (numSegmentsOf info d) = 0%nat /\
  cutVideo env buffer d
  = ([EvCreateFile; EvAppendBuffer buffer; EvCreateFile; EvAppendBuffer buffer],
     Resolved []).
Proof.
  intros Hparse Htracks Hpos Hd.
  assert (Hd0 : ~ d == 0) by (intros E0; rewrite E0 in Hd; discriminate).
  assert (Hguard : num_le (totalDurationInSeconds info) (Fin 0) = false).
  { destruct (totalDurationInSeconds info) as [t| | |]; try discriminate; [|reflexivity].
    simpl in *. unfold Qltb in Hpos. apply negb_true_iff in Hpos. exact Hpos. }
  assert (HN : num_lt (Fin 0) (numSegmentsOf info d) = false /\
               segmentCount (numSegmentsOf info d) = 0%nat /\
               numSegmentsOf info d <> PosInf).
  { destruct (totalDurationInSeconds info) as [t| | |] eqn:Ht; try discriminate.
    - rewrite (numSegmentsOf_quotient info d t Ht Hd0).
      simpl in Hpos. apply Qltb_true in Hpos.
      destruct (double_nonpos _ (Qlt_le_weak _ _ (Qdiv_neg t d Hpos Hd)))
        as [->|[-> Hneg]]; [repeat split; discriminate|].
      cbn [Math_ceil]. rewrite segmentCount_integer.
      assert (Hc : (Qceiling (nearestDouble (t / d)) <= 0)%Z)
        by (apply Qceiling_nonpos, Hneg).
      repeat split; [| |discriminate].
      + simpl. apply Qltb_false. change 0 with (inject_Z 0).
        apply inject_Z_le, Hc.
      + revert Hc. generalize (Qceiling (nearestDouble (t / d))). lia.
    - unfold numSegmentsOf. rewrite Ht. simpl.
      apply Qltb_true in Hd. rewrite Hd. simpl. repeat split; discriminate. }
  destruct HN as (Hnonpos & Hcount & Hinf).
  split; [exact Hnonpos|]. split; [exact Hcount|].
  destruct (cutVideo_ready env buffer d info batches Hparse Htracks Hguard Hinf)
    as (files & Hfiles & Hrun).
  apply streamed_length in Hfiles. rewrite Hcount in Hfiles.
  destruct files; [|discriminate].
  rewrite Hrun. unfold setupTrace, settle. rewrite Hcount, Hnonpos. reflexivity.
Qed.

(** C2, amended. On a valid input (a source that parses and has a track, a
    positive total duration, a positive segment duration) for which the
    numSegments of line 81 is finite, numSegments is the ceiling of the
    double totalDuration / segmentDuration and that many segment files are
    created: at least one, unless the quotient underflows to zero.  The list
    returned has one entry for each segment file whose finalized buffer is
    not empty, in strictly ascending segment-index order, so it has at most
    numSegments entries; when numSegments is positive and no buffer is
    non-empty the promise is rejected with the extraction failure. *)
Theorem cut_returns_non_empty_segments_in_order buffer d info batches t n :
  parse env buffer = ParseReady info batches ->
  Info.tracks info <> [] ->
  totalDurationInSeconds info = Fin t -> 0 < t -> 0 < d ->
  numSegmentsOf info d = Fin n ->
  let planned := Z.to_nat (Qceiling n) in
  n = inject_Z (Qceiling (nearestDouble (t / d))) /\
  n = inject_Z (Z.of_nat planned) /\
  (0 < nearestDouble (t / d) -> (1 <= planned)%nat) /\
  exists files,
    streamed env info batches d = inr files /\
    finalizedFiles (cutVideo env buffer d).1 = files /\
    length files = planned /\
    let entries := nonEmptyFrom env 0 files in
    (cutVideo env buffer d).2
    = match entries with
      | [] => if (0 <? planned)%nat then Rejected ExtractionFailure else Resolved []
      | _ :: _ => Resolved (map (clipOf env) entries)
      end /\
    (length entries <= planned)%nat /\
    StronglySorted lt (map fst entries) /\
    (forall j file,
        (j, file) ∈ entries <->
        files !! j = Some file /\ (0 < length (getBuffer env file))%nat).
Proof.
  intros Hparse Htracks Ht Htpos Hdpos HN planned.
  destruct (numSegmentsOf_Fin info d n HN) as (t' & Ht' & Hd0 & Hn).
  rewrite Ht in Ht'. injection Ht' as <-.
  pose proof (nearestDouble_nonneg _ (Qlt_le_weak _ _ (Qdiv_pos t d Htpos Hdpos)))
    as Hquot.
  assert (Hc : (0 <= Qceiling (nearestDouble (t / d)))%Z).
  { change 0%Z with (Qceiling 0). apply Qceiling_resp_le, Hquot. }
  assert (Hplanned : planned = Z.to_nat (Qceiling (nearestDouble (t / d)))).
  { unfold planned. rewrite Hn, Qceiling_inject_Z. reflexivity. }
  split; [exact Hn|]. split.
  { rewrite Hplanned, Z2Nat.id by exact Hc. exact Hn. }
  split.
  { intros Hpos. apply Qceiling_pos in Hpos. rewrite Hplanned.
    revert Hpos. generalize (Qceiling (nearestDouble (t / d))). lia. }
  assert (Hguard : num_le (totalDurationInSeconds info) (Fin 0) = false).
  { rewrite Ht. simpl. apply not_true_iff_false. rewrite Qle_bool_iff. lra. }
  assert (Hinf : numSegmentsOf info d <> PosInf) by (rewrite HN; discriminate).
  destruct (cutVideo_ready env buffer d info batches Hparse Htracks Hguard Hinf)
    as (files & Hfiles & Hrun).
  exists files. split; [exact Hfiles|].
  split.
  { rewrite Hrun. cbn [fst]. rewrite finalizedFiles_setup.
    apply finalizedFiles_finalizeFrom. }
  pose proof (streamed_length env _ _ _ _ Hfiles) as Hlen.
  rewrite HN in Hlen. cbn [segmentCount] in Hlen. fold planned in Hlen.
  split; [exact Hlen|]. cbv zeta.
  split; [|split; [|split]].
  - rewrite Hrun. cbn [snd]. unfold settle.
    rewrite finalizeFrom_clips, HN.
    destruct (nonEmptyFrom env 0 files) as [|entry entries] eqn:Hentries;
      [|reflexivity].
    cbn [map length Nat.eqb andb].
    assert (Hlt : num_lt (Fin 0) (Fin n) = (0 <? planned)%nat).
    { rewrite Hn, Hplanned. cbn [num_lt].
      destruct (0 <? Z.to_nat (Qceiling (nearestDouble (t / d))))%nat eqn:E.
      - apply Nat.ltb_lt in E. apply Qltb_true. change 0 with (inject_Z 0).
        apply inject_Z_lt. lia.
      - apply Nat.ltb_ge in E. apply Qltb_false. change 0 with (inject_Z 0).
        apply inject_Z_le. lia. }
    rewrite Hlt. reflexivity.
  - rewrite <- Hlen. apply nonEmptyFrom_length.
  - apply nonEmptyFrom_sorted.
  - intros j file. rewrite nonEmptyFrom_spec, Nat.sub_0_r.
    split; [intros (_ & H1 & H2); auto | intros (H1 & H2); repeat split; auto; lia].
Qed.

(** C6, amended. Once streaming is over every segment file is finalized,
    whatever it received; a segment file has an entry in the list the
    promise is settled with exactly when its finalized buffer is not
    empty. *)
Theorem cut_finalizes_every_builder buffer d info batches :
  parse env buffer = ParseReady info batches ->
  Info.tracks info <> [] ->
  num_le (totalDurationInSeconds info) (Fin 0) = false ->
  numSegmentsOf info d <> PosInf ->
  exists files entries,
    streamed env info batches d = inr files /\
    (forall file, file ∈ files -> EvGetBuffer file ∈ (cutVideo env buffer d).1) /\
    (cutVideo env buffer d).2
    = settle (numSegmentsOf info d) (map (clipOf env) entries) /\
    (forall j file,
        files !! j = Some file ->
        ((j, file) ∈ entries <-> (0 < length (getBuffer env file))%nat)).
Proof.
  intros Hparse Htracks Hguard Hinf.
  destruct (cutVideo_ready env buffer d info batches Hparse Htracks Hguard Hinf)
    as (files & Hfiles & Hrun).
  exists files, (nonEmptyFrom env 0 files). split; [exact Hfiles|].
  split; [|split].
  - intros file Hin. rewrite Hrun. cbn [fst].
    apply elem_of_app. right. apply finalizeFrom_events, Hin.
  - rewrite Hrun. cbn [snd]. rewrite finalizeFrom_clips. reflexivity.
  - intros j file Hj. rewrite nonEmptyFrom_spec, Nat.sub_0_r.
    split; [intros (_ & _ & H); exact H | intros H; repeat split; auto; lia].
Qed.





End CutProperties.

(** ** The run of combineVideos on sources that parse *)

Section CombineRun.

Context (env : Env).

Lemma appendSamples_spec newTrackId acc samples file :
  MP4File.tracks (appendSamples newTrackId acc samples file) = MP4File.tracks file /\
  MP4File.samples (appendSamples newTrackId acc samples file)
  = MP4File.samples file ++ map (fun s => (newTrackId, shift acc s)) samples.
Proof.
  unfold appendSamples. revert file.
  induction samples as [|s samples IH]; intros file; simpl.
  - rewrite app_nil_r. auto.
  - destruct (IH (addSample newTrackId (shift acc s) file)) as [Ht Hs].
    rewrite Ht, Hs. simpl. rewrite <- app_assoc. auto.
Qed.

Lemma appendClip_run newTrackId url file acc info samples :
  sourceOf env url = Some (info, samples) ->
  appendClip env newTrackId url (file, acc)
  = (sourceTrace env url,
     Resolved (appendSamples newTrackId acc samples file, acc + Info.duration info)).
Proof.
  unfold sourceOf, sourceTrace.
  destruct (fetch env url) as [buffer|e|] eqn:Hfetch; try discriminate.
  destruct (parse env buffer) as [e|info' batches|] eqn:Hparse; try discriminate.
  destruct (Info.tracks info') as [|track0 tracks] eqn:Htracks; [discriminate|].
  intros [= <- <-].
  unfold appendClip, fetchBuffer, getInfo, getSamples.
  unfold mbind, M_bind, tell, await, mret, M_ret.
  rewrite Hfetch. cbn [app]. rewrite Hparse, Htracks. reflexivity.
Qed.

Lemma appendClips_run newTrackId urls sources file acc :
  Forall2 (fun url source => sourceOf env url = Some source) urls sources ->
  exists final acc',
    foldM (appendClip env newTrackId) urls (file, acc)
    = (flat_map (sourceTrace env) urls, Resolved (final, acc')) /\
    MP4File.tracks final = MP4File.tracks file /\
    MP4File.samples final = MP4File.samples file ++ stitched newTrackId acc sources.
Proof.
  intros H. revert file acc.
  induction H as [|url [info samples] urls sources Hsrc _ IH]; intros file acc.
  - exists file, acc. simpl. rewrite app_nil_r. auto.
  - destruct (IH (appendSamples newTrackId acc samples file) (acc + Info.duration info))
      as (final & acc' & Hrun & Ht & Hs).
    exists final, acc'.
    destruct (appendSamples_spec newTrackId acc samples file) as [Ht1 Hs1].
    split; [|split].
    + cbn [foldM flat_map]. rewrite (appendClip_run _ _ _ _ _ _ Hsrc).
      unfold mbind at 1, M_bind at 1. rewrite Hrun. reflexivity.
    + congruence.
    + rewrite Hs, Hs1. simpl. rewrite <- app_assoc. reflexivity.
Qed.

Lemma sourceTrace_no_finalize urls :
  finalizedFiles (flat_map (sourceTrace env) urls) = [].
Proof.
  unfold finalizedFiles. induction urls as [|u us IH]; [reflexivity|].
  cbn [flat_map]. rewrite omap_app, IH, app_nil_r. unfold sourceTrace.
  destruct (fetch env u); reflexivity.
Qed.

(** The run on two sources or more, all of which parse. *)
Lemma combineVideos_run url0 url1 urls sources :
  Forall2 (fun url source => sourceOf env url = Some source)
          (url0 :: url1 :: urls) sources ->
  exists info0 samples0 track0 tracks0 rest final setup,
    sources = (info0, samples0) :: rest /\
    Info.tracks info0 = track0 :: tracks0 /\
    MP4File.tracks final
    = [(addTrack_id env MP4File.empty (combinedOptions env (Some track0)),
        combinedOptions env (Some track0))] /\
    MP4File.samples final
    = stitched (addTrack_id env MP4File.empty (combinedOptions env (Some track0)))
               0 sources /\
    finalizedFiles setup = [] /\
    combineVideos env (url0 :: url1 :: urls)
    = (setup ++ [EvGetBuffer final; EvCreateObjectURL (getBuffer env final)],
       Resolved (createObjectURL env (getBuffer env final))).
Proof.
  intros Hall. pose proof Hall as Hall'.
  destruct sources as [|[info0 samples0] rest]; [inversion Hall|].
  apply Forall2_cons in Hall' as [H0 _].
  unfold combineVideos, fetchBuffer, getInfo.
  unfold sourceOf in H0.
  destruct (fetch env url0) as [buffer|e|] eqn:Hfetch; try discriminate.
  destruct (parse env buffer) as [e|info batches|] eqn:Hparse; try discriminate.
  destruct (Info.tracks info) as [|track0 tracks0] eqn:Htracks; [discriminate|].
  injection H0 as <- _.
  set (newTrackId := addTrack_id env MP4File.empty (combinedOptions env (Some track0))).
  destruct (appendClips_run newTrackId (url0 :: url1 :: urls) _
              (MP4File.mk [(newTrackId, combinedOptions env (Some track0))] []) 0 Hall)
    as (final & acc' & Hrun & Ht & Hs).
  exists info, samples0, track0, tracks0, rest, final.
  exists ([EvCreateFile; EvFetch url0; EvCreateFile; EvAppendBuffer buffer]
            ++ flat_map (sourceTrace env) (url0 :: url1 :: urls)).
  split; [reflexivity|]. split; [exact Htracks|].
  split; [exact Ht|]. split; [exact Hs|]. split.
  - unfold finalizedFiles. rewrite omap_app.
    fold (finalizedFiles (flat_map (sourceTrace env) (url0 :: url1 :: urls))).
    rewrite sourceTrace_no_finalize. reflexivity.
  - unfold mbind, M_bind, tell, await, mret, M_ret.
    rewrite Hparse, Htracks. cbn [app]. rewrite Htracks.
    cbn [lookup list_lookup].
    unfold addTrack. cbn [MP4File.tracks MP4File.samples MP4File.empty app].
    fold (combinedOptions env (Some track0)). fold newTrackId.
    rewrite Hrun. cbn [fst snd app]. rewrite <- ?app_assoc. reflexivity.
Qed.

End CombineRun.

(** ** Properties of combineVideos *)

Section CombineProperties.

Context (env : Env).

Lemma stitched_ids newTrackId acc sources :
  Forall (fun entry => entry.1 = newTrackId) (stitched newTrackId acc sources).
Proof.
  revert acc. induction sources as [|[info samples] rest IH]; intros acc; simpl.
  - constructor.
  - apply Forall_app. split; [|apply IH].
    apply Forall_forall. intros entry Hin.
    apply list_elem_of_fmap in Hin as (s & -> & _). reflexivity.
Qed.

Lemma stitched_covers newTrackId acc sources info samples s :
  (info, samples) ∈ sources -> s ∈ samples ->
  exists offset, (newTrackId, shift offset s) ∈ stitched newTrackId acc sources.
Proof.
  intros Hsrc Hs. revert acc.
  induction sources as [|[info' samples'] rest IH]; intros acc;
    [inversion Hsrc|].
  apply elem_of_cons in Hsrc as [[= <- <-]|Hsrc]; simpl.
  - exists acc. apply elem_of_app. left.
    apply list_elem_of_fmap. exists s. auto.
  - destruct (IH Hsrc (acc + Info.duration info')) as [offset Hin].
    exists offset. apply elem_of_app. right. exact Hin.
Qed.

Lemma durationBefore_S info samples sources k :
  durationBefore (S k) ((info, samples) :: sources)
  = Info.duration info + durationBefore k sources.
Proof. reflexivity. Qed.

(** Where an entry of the output comes from. *)
Lemma stitched_origin newTrackId acc sources entry :
  entry ∈ stitched newTrackId acc sources ->
  exists k info samples s offset,
    sources !! k = Some (info, samples) /\ s ∈ samples /\
    offset == acc + durationBefore k sources /\
    entry = (newTrackId, shift offset s).
Proof.
  revert acc. induction sources as [|[info' samples'] rest IH]; intros acc Hin;
    [inversion Hin|].
  simpl in Hin. apply elem_of_app in Hin as [Hin|Hin].
  - apply list_elem_of_fmap in Hin as (s & -> & Hs).
    exists 0%nat, info', samples', s, acc. repeat split; auto.
    unfold durationBefore. simpl. ring.
  - destruct (IH _ Hin) as (k & info & samples & s & offset & Hk & Hs & Hoff & ->).
    exists (S k), info, samples, s, offset. repeat split; auto.
    rewrite Hoff, durationBefore_S. ring.
Qed.

(** The samples combineVideos takes from a clip were delivered for its
    first track. *)
Lemma sourceOf_samples url info samples s :
  sourceOf env url = Some (info, samples) -> s ∈ samples ->
  exists buffer batches track0 tracks call,
    fetch env url = Resolved buffer /\
    parse env buffer = ParseReady info batches /\
    Info.tracks info = track0 :: tracks /\
    (Track.id track0, call) ∈ batches /\ s ∈ call.
Proof.
  unfold sourceOf.
  destruct (fetch env url) as [buffer|e|] eqn:Hfetch; try discriminate.
  destruct (parse env buffer) as [e|info' batches|] eqn:Hparse; try discriminate.
  destruct (Info.tracks info') as [|track0 tracks] eqn:Htracks; [discriminate|].
  intros [= <- <-] Hs.
  apply list_elem_of_In, in_concat in Hs as (call & Hcall & Hs).
  apply list_elem_of_In in Hs, Hcall.
  apply list_elem_of_fmap in Hcall as ([trackId call'] & -> & Hcall).
  apply list_elem_of_filter in Hcall as [Hid Hcall].
  apply bool_decide_unpack, list_elem_of_singleton in Hid. cbn [fst] in Hid.
  subst trackId. exists buffer, batches, track0, tracks, call'.
  repeat split; assumption || reflexivity.
Qed.

(** C8. With no source the promise is rejected with the empty-input error
    before any call is made: no file is created, nothing is fetched. *)
Theorem combine_empty_input_fails :
  (combineVideos env []).2 = Rejected EmptyInput /\
  (combineVideos env []).1 = [].
Proof. split; reflexivity. Qed.

(** C4. With one source the promise resolves with that source itself, and
    no call is made: nothing is fetched, parsed, created or finalized. *)
Theorem combine_single_source_passes_through (url : string) :
  (combineVideos env [url]).2 = Resolved url /\
  (combineVideos env [url]).1 = [].
Proof. split; reflexivity. Qed.

(** C1, amended. With two sources or more that parse, the output file has
    exactly one track: the first track of the first source, with identifier
    1 asked for, the two dates set to the time of the call, and the sample
    count and the duration set to zero.  Every sample added to the output is
    added to that track; every sample of the first track of every source is
    added, moved by some offset; and every sample of the output is one
    MP4Box delivered for the first track of a source, with its duration,
    sync flag and payload: what is delivered for another track is not
    taken. *)
Theorem combine_builds_one_track url0 url1 urls sources :
  Forall2 (fun url source => sourceOf env url = Some source)
          (url0 :: url1 :: urls) sources ->
  exists info0 samples0 track0 final newTrackId,
    head sources = Some (info0, samples0) /\
    head (Info.tracks info0) = Some track0 /\
    finalizedFiles (combineVideos env (url0 :: url1 :: urls)).1 = [final] /\
    (combineVideos env (url0 :: url1 :: urls)).2
    = Resolved (createObjectURL env (getBuffer env final)) /\
    MP4File.tracks final
    = [(newTrackId,
        TrackOptions.mk (Some track0) (Some 1%Z)
          (Some (now_created env)) (Some (now_modified env)) 0%Z 0)] /\
    Forall (fun entry => entry.1 = newTrackId) (MP4File.samples final) /\
    (forall info samples s,
        (info, samples) ∈ sources -> s ∈ samples ->
        exists offset, (newTrackId, shift offset s) ∈ MP4File.samples final) /\
    (forall entry,
        entry ∈ MP4File.samples final ->
        exists url buffer info batches first tracks call s,
          url ∈ url0 :: url1 :: urls /\
          fetch env url = Resolved buffer /\
          parse env buffer = ParseReady info batches /\
          Info.tracks info = first :: tracks /\
          (Track.id first, call) ∈ batches /\ s ∈ call /\
          Sample.duration entry.2 = Sample.duration s /\
          Sample.is_sync entry.2 = Sample.is_sync s /\
          Sample.data entry.2 = Sample.data s).
Proof.
  intros Hall.
  destruct (combineVideos_run env url0 url1 urls sources Hall)
    as (info0 & samples0 & track0 & tracks0 & rest & final & setup
        & -> & Htracks & Ht & Hs & Hsetup & Hrun).
  exists info0, samples0, track0, final,
    (addTrack_id env MP4File.empty (combinedOptions env (Some track0))).
  split; [reflexivity|]. split; [rewrite Htracks; reflexivity|].
  rewrite Hrun. cbn [fst snd]. split.
  { unfold finalizedFiles in *. rewrite omap_app, Hsetup. reflexivity. }
  split; [reflexivity|]. split; [exact Ht|].
  rewrite Hs. split; [apply stitched_ids|]. split.
  - intros info samples s. apply stitched_covers.
  - intros entry Hentry.
    apply stitched_origin in Hentry
      as (k & info & samples & s & offset & Hk & Hin & _ & ->).
    destruct (Forall2_lookup_r _ _ _ _ _ Hall Hk) as (url & Hurl & Hsource).
    destruct (sourceOf_samples url info samples s Hsource Hin)
      as (buffer & batches & t0 & ts & call & Hfetch & Hparse & Htr & Hcall & Hscall).
    exists url, buffer, info, batches, t0, ts, call, s.
    repeat split; try assumption.
    eapply list_elem_of_lookup_2, Hurl.
Qed.

(** C10. With two sources or more that parse, the samples of the output are
    the samples of the sources in input order, each source as a block moved
    by the durations of the sources before it; the block of the first source
    comes first and is moved by zero, which leaves both time stamps and the
    payload as they are. *)
Theorem combine_appends_in_input_order url0 url1 urls sources :
  Forall2 (fun url source => sourceOf env url = Some source)
          (url0 :: url1 :: urls) sources ->
  exists info0 samples0 rest final newTrackId,
    sources = (info0, samples0) :: rest /\
    finalizedFiles (combineVideos env (url0 :: url1 :: urls)).1 = [final] /\
    MP4File.samples final = stitched newTrackId 0 sources /\
    MP4File.samples final
    = map (fun s => (newTrackId, shift 0 s)) samples0
        ++ stitched newTrackId (0 + Info.duration info0) rest /\
    (forall s, Sample.dts (shift 0 s) == Sample.dts s /\
               Sample.cts (shift 0 s) == Sample.cts s /\
               Sample.data (shift 0 s) = Sample.data s).
Proof.
  intros Hall.
  destruct (combineVideos_run env url0 url1 urls sources Hall)
    as (info0 & samples0 & track0 & tracks0 & rest & final & setup
        & -> & Htracks & Ht & Hs & Hsetup & Hrun).
  exists info0, samples0, rest, final,
    (addTrack_id env MP4File.empty (combinedOptions env (Some track0))).
  split; [reflexivity|]. rewrite Hrun. cbn [fst]. split.
  { unfold finalizedFiles in *. rewrite omap_app, Hsetup. reflexivity. }
  split; [exact Hs|]. split; [rewrite Hs; reflexivity|].
  intros s. unfold shift. cbn [Sample.dts Sample.cts Sample.data].
  repeat split; ring.
Qed.

End CombineProperties.

(** ** The engines on explicit inputs *)

(** Membership in a list that computes. *)
Ltac elem_by_compute :=
  apply list_elem_of_In; vm_compute;
  repeat (first [left; reflexivity | right]).

Lemma cut_negative_duration_witness :
  -8 < 0 /\
  num_lt (Fin 0) (numSegmentsOf Demo.info (-8)) = false /\
  segmentCount (numSegmentsOf Demo.info (-8)) = 0%nat /\
  cutVideo Demo.env Demo.movie (-8)
  = ([EvCreateFile; EvAppendBuffer Demo.movie; EvCreateFile; EvAppendBuffer Demo.movie],
     Resolved []).
Proof.
  split; [reflexivity|].
  apply (cut_negative_duration_resolves_empty Demo.env Demo.movie (-8)
           Demo.info Demo.movie_calls);
    [reflexivity | discriminate | reflexivity | reflexivity].
Defined.

(** 7 ticks at 25 per second cut at 0.04 seconds: 7/25/0.04 rounds to
    7.000000000000001, eight segment files are created and eight clips are
    returned, where the ceiling of the quotient is 7.  3 ticks cut at 0.06
    seconds: 3/25/0.06 rounds to 2, two clips are returned, where the
    ceiling of the quotient is 3. *)
Lemma cut_planned_count_counterexample :
  ~ returns_planned_count Rounding.env Rounding.short Rounding.d004 /\
  ~ returns_planned_count Rounding.env Rounding.brief Rounding.d006.
Proof.
  split; intros H.
  - assert (Hrun : exists clips,
               (cutVideo Rounding.env Rounding.short Rounding.d004).2 = Resolved clips /\
               length clips = 8%nat)
      by (vm_compute; eexists; split; reflexivity).
    destruct Hrun as (clips & Hrun & Hlen).
    specialize (H Rounding.short_info Rounding.short_calls clips
                  eq_refl ltac:(discriminate) eq_refl eq_refl Hrun).
    rewrite Hlen in H. vm_compute in H. discriminate H.
  - assert (Hrun : exists clips,
               (cutVideo Rounding.env Rounding.brief Rounding.d006).2 = Resolved clips /\
               length clips = 2%nat)
      by (vm_compute; eexists; split; reflexivity).
    destruct Hrun as (clips & Hrun & Hlen).
    specialize (H Rounding.brief_info Rounding.brief_calls clips
                  eq_refl ltac:(discriminate) eq_refl eq_refl Hrun).
    rewrite Hlen in H. vm_compute in H. discriminate H.
Qed.

Lemma cut_returns_non_empty_segments_witness :
  3 = inject_Z (Qceiling (nearestDouble (20 / 8))) /\
  3 = inject_Z (Z.of_nat (Z.to_nat (Qceiling 3))) /\
  (0 < nearestDouble (20 / 8) -> (1 <= Z.to_nat (Qceiling 3))%nat) /\
  exists files,
    streamed Demo.env Demo.info Demo.movie_calls 8 = inr files /\
    finalizedFiles (cutVideo Demo.env Demo.movie 8).1 = files /\
    length files = Z.to_nat (Qceiling 3) /\
    (cutVideo Demo.env Demo.movie 8).2
    = match nonEmptyFrom Demo.env 0 files with
      | [] => if (0 <? Z.to_nat (Qceiling 3))%nat
              then Rejected ExtractionFailure else Resolved []
      | _ :: _ => Resolved (map (clipOf Demo.env) (nonEmptyFrom Demo.env 0 files))
      end /\
    (length (nonEmptyFrom Demo.env 0 files) <= Z.to_nat (Qceiling 3))%nat /\
    StronglySorted lt (map fst (nonEmptyFrom Demo.env 0 files)) /\
    (forall j file,
        (j, file) ∈ nonEmptyFrom Demo.env 0 files <->
        files !! j = Some file /\ (0 < length (getBuffer Demo.env file))%nat).
Proof.
  apply (cut_returns_non_empty_segments_in_order Demo.env Demo.movie 8
           Demo.info Demo.movie_calls 20 3);
    [reflexivity | discriminate | reflexivity | reflexivity | reflexivity
     | reflexivity].
Defined.

Lemma cut_finalizes_empty_builder_counterexample :
  ~ never_finalizes_empty_builder Demo.env Demo.still 8.
Proof.
  intros H.
  apply (H Demo.info Demo.still_calls
           [MP4File.mk [(1%Z, TrackOptions.mk (Some Demo.video) None None None 0%Z 0)]
                       [(1%Z, Demo.sample 0 0)];
            idle_segment; idle_segment]
           idle_segment).
  - reflexivity.
  - vm_compute. reflexivity.
  - elem_by_compute.
  - reflexivity.
  - elem_by_compute.
Qed.

Lemma cut_finalizes_every_builder_witness :
  exists files entries,
    streamed Demo.env Demo.info Demo.still_calls 8 = inr files /\
    (forall file, file ∈ files ->
                  EvGetBuffer file ∈ (cutVideo Demo.env Demo.still 8).1) /\
    (cutVideo Demo.env Demo.still 8).2
    = settle (numSegmentsOf Demo.info 8) (map (clipOf Demo.env) entries) /\
    (forall j file,
        files !! j = Some file ->
        ((j, file) ∈ entries <-> (0 < length (getBuffer Demo.env file))%nat)).
Proof.
  apply (cut_finalizes_every_builder Demo.env Demo.still 8 Demo.info Demo.still_calls);
    [reflexivity | discriminate | reflexivity | discriminate].
Defined.







(** A first source with a video and an audio track: the output has the
    video track only. *)
Lemma combine_track_count_counterexample :
  ~ mirrors_every_track Demo.env demo_urls.
Proof.
  intros H.
  assert (Hfinal : exists final,
             final ∈ finalizedFiles (combineVideos Demo.env demo_urls).1 /\
             length (MP4File.tracks final) = 1%nat).
  { vm_compute. eexists. split; [left|reflexivity]. }
  destruct Hfinal as (final & Hin & Hlen).
  specialize (H "blob:talkie"%string ["blob:movie"%string] Demo.talkie
                Demo.talkie_info Demo.talkie_calls final
                eq_refl eq_refl eq_refl Hin).
  rewrite Hlen in H. discriminate H.
Qed.

Lemma combine_builds_one_track_witness :
  exists info0 samples0 track0 final newTrackId,
    head demo_sources = Some (info0, samples0) /\
    head (Info.tracks info0) = Some track0 /\
    finalizedFiles (combineVideos Demo.env demo_urls).1 = [final] /\
    (combineVideos Demo.env demo_urls).2
    = Resolved (createObjectURL Demo.env (getBuffer Demo.env final)) /\
    MP4File.tracks final
    = [(newTrackId,
        TrackOptions.mk (Some track0) (Some 1%Z)
          (Some (now_created Demo.env)) (Some (now_modified Demo.env)) 0%Z 0)] /\
    Forall (fun entry => entry.1 = newTrackId) (MP4File.samples final) /\
    (forall info samples s,
        (info, samples) ∈ demo_sources -> s ∈ samples ->
        exists offset, (newTrackId, shift offset s) ∈ MP4File.samples final) /\
    (forall entry,
        entry ∈ MP4File.samples final ->
        exists url buffer info batches first tracks call s,
          url ∈ demo_urls /\
          fetch Demo.env url = Resolved buffer /\
          parse Demo.env buffer = ParseReady info batches /\
          Info.tracks info = first :: tracks /\
          (Track.id first, call) ∈ batches /\ s ∈ call /\
          Sample.duration entry.2 = Sample.duration s /\
          Sample.is_sync entry.2 = Sample.is_sync s /\
          Sample.data entry.2 = Sample.data s).
Proof.
  apply (combine_builds_one_track Demo.env "blob:talkie" "blob:movie" []
           demo_sources);
    repeat constructor.
Defined.

Lemma combine_appends_in_input_order_witness :
  exists info0 samples0 rest final newTrackId,
    demo_sources = (info0, samples0) :: rest /\
    finalizedFiles (combineVideos Demo.env demo_urls).1 = [final] /\
    MP4File.samples final = stitched newTrackId 0 demo_sources /\
    MP4File.samples final
    = map (fun s => (newTrackId, shift 0 s)) samples0
        ++ stitched newTrackId (0 + Info.duration info0) rest /\
    (forall s, Sample.dts (shift 0 s) == Sample.dts s /\
               Sample.cts (shift 0 s) == Sample.cts s /\
               Sample.data (shift 0 s) = Sample.data s).
Proof.
  apply (combine_appends_in_input_order Demo.env "blob:talkie" "blob:movie" []
           demo_sources);
    repeat constructor.
Defined.

(** ** Further properties of combineVideos *)

Section CombineMore.

Context (env : Env).


Lemma appendClip_failed newTrackId url state :
  sourceOf env url = None ->
  producesNoOutput (appendClip env newTrackId url state).1 /\
  (forall state', (appendClip env newTrackId url state).2 <> Resolved state').
Proof.
  unfold sourceOf, appendClip, fetchBuffer, getInfo, getSamples. destruct state as [file acc].
  unfold mbind, M_bind, tell, await, mret, M_ret, reject, pending, producesNoOutput.
  destruct (fetch env url) as [buffer|e|] eqn:Hfetch;
    [|intros _; split; [repeat constructor | discriminate] ..].
  cbn [app]. destruct (parse env buffer) as [e|info batches|] eqn:Hparse;
    [intros _; split; [repeat constructor | discriminate] | |
     intros _; split; [repeat constructor | discriminate]].
  destruct (Info.tracks info) as [|track0 tracks] eqn:Htracks; [|discriminate].
  intros _. split; [repeat constructor | discriminate].
Qed.

Lemma sourceTrace_no_output url : producesNoOutput (sourceTrace env url).
Proof.
  unfold sourceTrace, producesNoOutput. destruct (fetch env url); repeat constructor.
Qed.

(** The loop over the clips stops at the first one that does not parse. *)
Lemma appendClips_failed newTrackId urls state :
  Exists (fun url => sourceOf env url = None) urls ->
  producesNoOutput (foldM (appendClip env newTrackId) urls state).1 /\
  (forall state', (foldM (appendClip env newTrackId) urls state).2 <> Resolved state').
Proof.
  revert state. induction urls as [|url urls IH]; intros state Hbad;
    [inversion Hbad|].
  cbn [foldM]. destruct (sourceOf env url) as [[info samples]|] eqn:Hsrc.
  - apply Exists_cons in Hbad as [Hbad|Hbad]; [congruence|].
    destruct state as [file acc].
    rewrite (appendClip_run env _ _ _ _ _ _ Hsrc).
    unfold mbind at 1 2, M_bind at 1 2.
    specialize (IH (appendSamples newTrackId acc samples file, acc + Info.duration info) Hbad).
    destruct (foldM (appendClip env newTrackId) urls
                (appendSamples newTrackId acc samples file, acc + Info.duration info))
      as [tr o].
    cbn [fst snd] in *. destruct IH as [Htr Ho]. split; [|exact Ho].
    apply Forall_app. split; [apply sourceTrace_no_output | exact Htr].
  - destruct (appendClip_failed newTrackId url state Hsrc) as [Htr Ho].
    unfold mbind, M_bind.
    destruct (appendClip env newTrackId url state) as [tr [state'| e |]];
      cbn [fst snd] in *; [exfalso; eapply Ho; reflexivity | |];
      (split; [exact Htr | discriminate]).
Qed.

(** X1. When one of two or more sources cannot be fetched, does not parse or
    has no track, combineVideos does not resolve, and it finalizes no file
    and creates no object URL: there is no partial output. *)
Theorem combine_aborts_without_output url0 url1 urls :
  Exists (fun url => sourceOf env url = None) (url0 :: url1 :: urls) ->
  producesNoOutput (combineVideos env (url0 :: url1 :: urls)).1 /\
  (forall url, (combineVideos env (url0 :: url1 :: urls)).2 <> Resolved url).
Proof.
  intros Hbad. unfold combineVideos, fetchBuffer, getInfo.
  unfold mbind, M_bind, tell, await, reject, pending, mret, M_ret.
  unfold producesNoOutput.
  destruct (fetch env url0) as [buffer|e|] eqn:Hfetch;
    [|(cbn; split; [repeat constructor | intros ?; discriminate]) ..].
  cbn [app]. destruct (parse env buffer) as [e|info batches|] eqn:Hparse;
    [(cbn; split; [repeat constructor | intros ?; discriminate]) | |
     (cbn; split; [repeat constructor | intros ?; discriminate])].
  destruct (Info.tracks info) as [|track0 tracks] eqn:Htracks;
    [(cbn; split; [repeat constructor | intros ?; discriminate])|].
  cbn [app]. rewrite Htracks. cbn [lookup list_lookup]. unfold addTrack.
  match goal with
  | |- context [foldM (appendClip env ?id) ?l ?st] =>
      destruct (appendClips_failed id l st Hbad) as [Htr Ho];
      destruct (foldM (appendClip env id) l st) as [tr [final|e|]]
  end; cbn [fst snd] in *.
  - exfalso. eapply Ho. reflexivity.
  - split; [|discriminate]. repeat (constructor; [exact I|]). exact Htr.
  - split; [|discriminate]. repeat (constructor; [exact I|]). exact Htr.
Qed.


(** X13. combineVideos takes the first track of each source only: with two
    sources or more that parse, every sample of the output was delivered by
    MP4Box for the identifier of the first track of the source it comes
    from; what is delivered for another track never reaches the output. *)
Theorem combine_takes_first_track_only url0 url1 urls sources :
  Forall2 (fun url source => sourceOf env url = Some source)
          (url0 :: url1 :: urls) sources ->
  exists final,
    finalizedFiles (combineVideos env (url0 :: url1 :: urls)).1 = [final] /\
    (forall entry,
        entry ∈ MP4File.samples final ->
        exists url buffer info batches track0 tracks call s,
          url ∈ url0 :: url1 :: urls /\
          fetch env url = Resolved buffer /\
          parse env buffer = ParseReady info batches /\
          Info.tracks info = track0 :: tracks /\
          (Track.id track0, call) ∈ batches /\ s ∈ call /\
          Sample.data entry.2 = Sample.data s).
Proof.
  intros Hall.
  destruct (combineVideos_run env url0 url1 urls sources Hall)
    as (info0 & samples0 & track0 & tracks0 & rest & final & setup
        & Hsrc & _ & _ & Hs & Hsetup & Hrun).
  exists final. rewrite Hrun. cbn [fst]. split.
  { unfold finalizedFiles in *. rewrite omap_app, Hsetup. reflexivity. }
  intros entry Hentry. rewrite Hs in Hentry.
  apply stitched_origin in Hentry
    as (k & info & samples & s & offset & Hk & Hin & _ & ->).
  destruct (Forall2_lookup_r _ _ _ _ _ Hall Hk) as (url & Hurl & Hsource).
  destruct (sourceOf_samples env url info samples s Hsource Hin)
    as (buffer & batches & t0 & ts & call & Hfetch & Hparse & Htracks & Hcall & Hscall).
  exists url, buffer, info, batches, t0, ts, call, s.
  repeat split; try assumption.
  eapply list_elem_of_lookup_2, Hurl.
Qed.

End CombineMore.

(** ** Further properties of cutVideo *)

Section CutMore.

Context (env : Env).

(** The files a run finalizes are the streamed segment files, in order; a
    run that ends early finalizes none. *)
Lemma cutVideo_finalizedFiles buffer d :
  finalizedFiles (cutVideo env buffer d).1 = [] \/
  exists info batches files,
    parse env buffer = ParseReady info batches /\
    earlyExit info d = None /\
    streamed env info batches d = inr files /\
    finalizedFiles (cutVideo env buffer d).1 = files.
Proof.
  destruct (parse env buffer) as [e|info batches|] eqn:Hparse.
  - left. destruct (cutVideo_unparsed env buffer d) as [-> _]; [congruence|reflexivity].
  - destruct (earlyExit info d) as [o|] eqn:Hearly.
    + left. rewrite (cutVideo_early env _ _ _ _ _ Hparse Hearly). reflexivity.
    + right. exists info, batches.
      destruct (earlyExit_None _ _ Hearly) as (Htracks & Hguard & Hinf).
      destruct (cutVideo_ready env buffer d info batches Hparse Htracks Hguard Hinf)
        as (files & Hfiles & Hrun).
      exists files. repeat split; try assumption.
      rewrite Hrun. cbn [fst].
      rewrite finalizedFiles_setup. apply finalizedFiles_finalizeFrom.
  - left. destruct (cutVideo_unparsed env buffer d) as [-> _]; [congruence|reflexivity].
Qed.

Lemma cutVideo_finalized_at buffer d info batches i file :
  parse env buffer = ParseReady info batches ->
  finalizedFiles (cutVideo env buffer d).1 !! i = Some file ->
  exists files,
    earlyExit info d = None /\
    streamed env info batches d = inr files /\
    files !! i = Some file.
Proof.
  intros Hparse Hi.
  destruct (cutVideo_finalizedFiles buffer d)
    as [Hnone|(info' & batches' & files & Hparse' & Hearly & Hfiles & Hfin)].
  - rewrite Hnone in Hi. discriminate.
  - rewrite Hparse in Hparse'. injection Hparse' as <- <-.
    exists files. rewrite Hfin in Hi. auto.
Qed.

(** *** The tracks of the segment files *)

Lemma addTrackToSegments_tracks track files :
  Forall2 (fun f f' =>
             map snd (MP4File.tracks f') = map snd (MP4File.tracks f) ++ [mirroredOptions track])
          files (addTrackToSegments env track files).2.
Proof.
  unfold addTrackToSegments. cbn [snd].
  induction files as [|f files IH]; cbn [map]; constructor; [|exact IH].
  unfold addTrack. cbn [snd MP4File.tracks]. rewrite List.map_app. reflexivity.
Qed.

Lemma prepareTracks_tracks_from tracks files (trackIdMap : gmap Z (list Z)) :
  Forall2 (fun f f' =>
             map snd (MP4File.tracks f')
             = map snd (MP4File.tracks f) ++ map mirroredOptions tracks)
          files (foldl (prepareTrack env) (files, trackIdMap) tracks).1.
Proof.
  revert files trackIdMap.
  induction tracks as [|track tracks IH]; intros files trackIdMap; cbn [foldl].
  - apply Forall_Forall2_diag, Forall_forall. intros f _. simpl.
    rewrite app_nil_r. reflexivity.
  - pose proof (addTrackToSegments_tracks track files) as H1.
    unfold prepareTrack at 2.
    destruct (addTrackToSegments env track files) as [newTrackIds files'].
    cbn [snd] in H1.
    eapply Forall2_trans; [| exact H1 | apply IH].
    intros f1 f2 f3 H12 H23. rewrite H23, H12, <- app_assoc. reflexivity.
Qed.

(** The tracks of a streamed segment file are those of the source, in
    order. *)
Lemma streamed_tracks info batches d files :
  streamed env info batches d = inr files ->
  Forall (fun f => map snd (MP4File.tracks f) = map mirroredOptions (Info.tracks info))
         files.
Proof.
  unfold streamed. intros H. apply stream_extends in H.
  pose proof (prepareTracks_tracks_from (Info.tracks info)
                (replicate (segmentCount (numSegmentsOf info d)) MP4File.empty) ∅)
    as Hprep.
  fold (prepareTracks env (Info.tracks info)
          (replicate (segmentCount (numSegmentsOf info d)) MP4File.empty)) in Hprep.
  fold (prepared env info d) in Hprep.
  apply Forall_forall. intros f' Hf'.
  apply list_elem_of_lookup in Hf' as [i Hi].
  destruct (Forall2_lookup_r _ _ _ _ _ H Hi) as (f & Hf & Htr & _).
  destruct (Forall2_lookup_r _ _ _ _ _ Hprep Hf) as (f0 & Hf0 & Htr0).
  apply lookup_replicate in Hf0 as [-> _].
  rewrite Htr, Htr0. reflexivity.
Qed.

(** X4. Every file a cut finalizes has one track for each track of the
    source, in the order of the source: the descriptor handed to addTrack is
    the source track itself, with its sample count and duration set to
    zero. *)
Theorem cut_segment_tracks_mirror_source buffer d info batches file :
  parse env buffer = ParseReady info batches ->
  EvGetBuffer file ∈ (cutVideo env buffer d).1 ->
  map snd (MP4File.tracks file) = map mirroredOptions (Info.tracks info) /\
  length (MP4File.tracks file) = length (Info.tracks info).
Proof.
  intros Hparse Hfile.
  apply cutVideo_finalized in Hfile
    as (info' & batches' & files & Hparse' & _ & Hfiles & Hin).
  rewrite Hparse in Hparse'. injection Hparse' as <- <-.
  pose proof (streamed_tracks _ _ _ _ Hfiles) as Htracks.
  rewrite Forall_forall in Htracks. specialize (Htracks file Hin).
  split; [exact Htracks|].
  rewrite <- (length_map snd), Htracks, length_map. reflexivity.
Qed.

(** *** The samples of the segment files *)

Lemma growsBy_refl files : growsBy (fun _ => []) files files.
Proof.
  split; [reflexivity|]. intros i file Hi. exists file.
  rewrite app_nil_r. auto.
Qed.

Lemma growsBy_trans added1 added2 files1 files2 files3 :
  growsBy added1 files1 files2 -> growsBy added2 files2 files3 ->
  growsBy (fun i => added1 i ++ added2 i) files1 files3.
Proof.
  intros [Hl1 H1] [Hl2 H2]. split; [congruence|].
  intros i file3 Hi.
  destruct (H2 i file3 Hi) as (file2 & Hi2 & Hs2).
  destruct (H1 i file2 Hi2) as (file1 & Hi1 & Hs1).
  exists file1. split; [exact Hi1|]. rewrite Hs2, Hs1, app_assoc. reflexivity.
Qed.

Lemma growsBy_ext added added' files files' :
  (forall i, added i = added' i) ->
  growsBy added files files' -> growsBy added' files files'.
Proof.
  intros Hext [Hl H]. split; [exact Hl|].
  intros i file' Hi. destruct (H i file' Hi) as (file & Hf & Hs).
  exists file. rewrite <- Hext. auto.
Qed.

Lemma assignedTo_dropped numSegments d ts i s :
  num_le (Fin 0) (segmentIndexOf d ts s)
    && num_lt (segmentIndexOf d ts s) numSegments = false ->
  assignedTo numSegments d ts i s = None.
Proof.
  unfold assignedTo. intros H.
  destruct (segmentIndexOf d ts s); try reflexivity. rewrite H. reflexivity.
Qed.

Lemma placeSample_grows numSegments d ts ids s files files' :
  placeSample numSegments d ts ids s files = inr files' ->
  growsBy (fun i => option_list (assignedTo numSegments d ts i s)) files files'.
Proof.
  unfold placeSample, assignedTo.
  destruct (segmentIndexOf d ts s) as [index| | |] eqn:Hidx;
    try (intros [= <-]; apply growsBy_refl).
  destruct (num_le (Fin 0) (Fin index) && num_lt (Fin index) numSegments) eqn:Htest;
    [|intros [= <-]; apply growsBy_refl].
  destruct (files !! Z.to_nat (Qfloor index)) as [f|] eqn:Hf; [|discriminate].
  destruct (ids !! Z.to_nat (Qfloor index)) as [id|]; [|discriminate].
  intros [= <-]. split; [apply length_insert|].
  intros i file' Hi. cbn [andb].
  destruct (Nat.eqb_spec (Z.to_nat (Qfloor index)) i) as [<-|Hne].
  - rewrite list_lookup_insert_eq in Hi by (eapply lookup_lt_Some, Hf).
    injection Hi as <-. exists f. split; [exact Hf|].
    unfold addSample. cbn [MP4File.samples]. rewrite List.map_app. reflexivity.
  - rewrite list_lookup_insert_ne in Hi by exact Hne.
    exists file'. rewrite app_nil_r. auto.
Qed.

Lemma placeSamples_grows numSegments d ts ids samples files files' :
  foldE (placeSample numSegments d ts ids) samples files = inr files' ->
  growsBy (fun i => omap (assignedTo numSegments d ts i) samples) files files'.
Proof.
  revert files. induction samples as [|s samples IH]; intros files; cbn [foldE].
  - intros [= <-]. apply growsBy_refl.
  - destruct (placeSample numSegments d ts ids s files) as [e|files1] eqn:H1;
      [discriminate|].
    intros H2. apply placeSample_grows in H1. apply IH in H2.
    eapply growsBy_ext; [|exact (growsBy_trans _ _ _ _ _ H1 H2)].
    intros i. cbn [omap list_omap].
    destruct (assignedTo numSegments d ts i s); reflexivity.
Qed.

Lemma onSamples_grows tracks (trackIdMap : gmap Z (list Z)) numSegments d call
    files files' :
  (forall track, In track tracks -> is_Some (trackIdMap !! Track.id track)) ->
  onSamples tracks trackIdMap numSegments d call files = inr files' ->
  growsBy (fun i => bucketOfCall tracks numSegments d i call) files files'.
Proof.
  intros Hkeys. unfold onSamples, bucketOfCall. destruct call as [trackId samples].
  cbn [fst snd].
  destruct (List.find _ tracks) as [track|] eqn:Hfind;
    [|intros [= <-]; apply growsBy_refl].
  apply find_some in Hfind as [Hin Hid]. apply Z.eqb_eq in Hid. subst trackId.
  destruct (Hkeys track Hin) as [ids ->].
  apply placeSamples_grows.
Qed.

Lemma stream_grows tracks (trackIdMap : gmap Z (list Z)) numSegments d calls
    files files' :
  (forall track, In track tracks -> is_Some (trackIdMap !! Track.id track)) ->
  foldE (onSamples tracks trackIdMap numSegments d) calls files = inr files' ->
  growsBy (fun i => bucket tracks numSegments d i calls) files files'.
Proof.
  intros Hkeys. revert files.
  induction calls as [|call calls IH]; intros files; cbn [foldE].
  - intros [= <-]. apply growsBy_refl.
  - destruct (onSamples tracks trackIdMap numSegments d call files) as [e|files1] eqn:H1;
      [discriminate|].
    intros H2. apply (onSamples_grows _ _ _ _ _ _ _ Hkeys) in H1. apply IH in H2.
    exact (growsBy_trans _ _ _ _ _ H1 H2).
Qed.

(** Every source track has its list of new identifiers in the map. *)
Lemma prepareTracks_keys_from tracks files (trackIdMap : gmap Z (list Z)) id :
  is_Some (trackIdMap !! id) \/ In id (map Track.id tracks) ->
  is_Some ((foldl (prepareTrack env) (files, trackIdMap) tracks).2 !! id).
Proof.
  revert files trackIdMap.
  induction tracks as [|track tracks IH]; intros files trackIdMap H; cbn [foldl].
  - destruct H as [H|[]]. exact H.
  - unfold prepareTrack at 2.
    destruct (addTrackToSegments env track files) as [newTrackIds files'].
    apply IH. destruct (decide (Track.id track = id)) as [<-|Hne].
    + left. rewrite lookup_insert_eq. eauto.
    + destruct H as [H|[H|H]]; [|contradiction|right; exact H].
      left. rewrite lookup_insert_ne by exact Hne. exact H.
Qed.

(** A call for an identifier that no track has adds nothing. *)
Lemma bucket_delivered tracks numSegments d i batches :
  bucket tracks numSegments d i (delivered (map Track.id tracks) batches)
  = bucket tracks numSegments d i batches.
Proof.
  unfold bucket, delivered.
  induction batches as [|call batches IH]; [reflexivity|].
  rewrite filter_cons. cbn [flat_map].
  destruct (decide (bool_decide (call.1 ∈ map Track.id tracks))) as [Hin|Hout].
  - cbn [flat_map]. rewrite IH. reflexivity.
  - rewrite IH. unfold bucketOfCall at 2.
    destruct (List.find _ tracks) as [track|] eqn:Hfind; [|reflexivity].
    exfalso. apply Hout. apply bool_decide_pack.
    apply find_some in Hfind as [Hin Hid]. apply Z.eqb_eq in Hid.
    apply list_elem_of_In, in_map_iff. eauto.
Qed.

Lemma streamed_buckets info batches d files i file :
  streamed env info batches d = inr files ->
  files !! i = Some file ->
  map snd (MP4File.samples file)
  = bucket (Info.tracks info) (numSegmentsOf info d) d i batches.
Proof.
  unfold streamed. intros H Hi.
  apply stream_grows in H.
  - destruct H as [_ H]. destruct (H i file Hi) as (file0 & Hi0 & Hs).
    pose proof (prepared_no_samples env info d) as Hempty.
    rewrite Forall_forall in Hempty.
    rewrite (Hempty file0) in Hs by (eapply list_elem_of_lookup_2, Hi0).
    rewrite Hs, bucket_delivered. reflexivity.
  - intros track Hin. unfold prepared, prepareTracks.
    apply prepareTracks_keys_from. right. apply in_map, Hin.
Qed.

(** X5. The file a cut finalizes for segment [i] holds, in delivery order,
    exactly the delivered samples whose segment index passes the test of
    line 125 and is [i], each rebased: no kept sample is lost, duplicated,
    reordered or put in another segment. *)
Theorem cut_segment_holds_its_bucket buffer d info batches i file :
  parse env buffer = ParseReady info batches ->
  finalizedFiles (cutVideo env buffer d).1 !! i = Some file ->
  map snd (MP4File.samples file)
  = bucket (Info.tracks info) (numSegmentsOf info d) d i batches.
Proof.
  intros Hparse Hi.
  destruct (cutVideo_finalized_at buffer d info batches i file Hparse Hi)
    as (files & _ & Hfiles & Hfile).
  eapply streamed_buckets; eassumption.
Qed.

(** *** Failures and object URLs *)

Lemma urlBuffers_setup buffer numSegments events :
  urlBuffers (setupTrace buffer numSegments ++ events) = urlBuffers events.
Proof.
  unfold urlBuffers, setupTrace. rewrite !omap_app. simpl.
  rewrite app_nil_r.
  induction (segmentCount numSegments) as [|n IH]; simpl; auto.
Qed.

Lemma urlBuffers_finalizeFrom i files :
  map (createObjectURL env) (urlBuffers (finalizeFrom env i files).1)
  = map Clip.url (finalizeFrom env i files).2.
Proof.
  revert i. induction files as [|f files IH]; intros i; cbn [finalizeFrom];
    [reflexivity|].
  specialize (IH (S i)). destruct (finalizeFrom env (S i) files) as [events clips].
  cbn [fst snd] in IH.
  destruct (0 <? length (getBuffer env f))%nat; cbn [fst snd].
  - change (createObjectURL env (getBuffer env f)
              :: map (createObjectURL env) (urlBuffers events)
            = createObjectURL env (getBuffer env f) :: map Clip.url clips).
    rewrite IH. reflexivity.
  - exact IH.
Qed.

(** X7. cutVideo creates one object URL for each clip it resolves with, in
    the order of the clips, and none when it does not resolve: a rejected
    or unsettled cut leaves no object URL behind. *)
Theorem cut_creates_one_url_per_clip buffer d :
  map (createObjectURL env) (urlBuffers (cutVideo env buffer d).1)
  = match (cutVideo env buffer d).2 with
    | Resolved clips => map Clip.url clips
    | _ => []
    end.
Proof.
  destruct (parse env buffer) as [e|info batches|] eqn:Hparse.
  - destruct (cutVideo_unparsed env buffer d) as [-> [->|(e' & _ & ->)]];
      congruence || reflexivity.
  - destruct (earlyExit info d) as [o|] eqn:Hearly.
    + rewrite (cutVideo_early env _ _ _ _ _ Hparse Hearly). cbn [fst snd].
      unfold earlyExit in Hearly.
      destruct (Info.tracks info); [injection Hearly as <-; reflexivity|].
      destruct (num_le (totalDurationInSeconds info) (Fin 0));
        [injection Hearly as <-; reflexivity|].
      destruct (numSegmentsOf info d); try discriminate.
      injection Hearly as <-. reflexivity.
    + destruct (earlyExit_None _ _ Hearly) as (Htracks & Hguard & Hinf).
      destruct (cutVideo_ready env buffer d info batches Hparse Htracks Hguard Hinf)
        as (files & Hfiles & ->).
      cbn [fst snd]. rewrite urlBuffers_setup, urlBuffers_finalizeFrom.
      unfold settle.
      destruct (finalizeFrom env 0 files).2 as [|clip clips]; [|reflexivity].
      cbn [length Nat.eqb andb].
      destruct (num_lt (Fin 0) (numSegmentsOf info d)); reflexivity.
  - destruct (cutVideo_unparsed env buffer d) as [-> [->|(e' & _ & ->)]];
      congruence || reflexivity.
Qed.

(** X8. A source that parses and has a track, with a duration that is not
    positive and a positive timescale, is rejected with the invalid-duration
    error after the one parse of getInfo: no segment file is created. *)
Theorem cut_rejects_non_positive_duration buffer d info batches :
  parse env buffer = ParseReady info batches ->
  Info.tracks info <> [] ->
  Info.duration info <= 0 -> 0 < Info.timescale info ->
  cutVideo env buffer d
  = ([EvCreateFile; EvAppendBuffer buffer], Rejected InvalidDuration).
Proof.
  intros Hparse Htracks Hdur Hts.
  apply (cutVideo_early env _ _ _ _ _ Hparse). unfold earlyExit.
  destruct (Info.tracks info); [congruence|].
  assert (Hts0 : ~ Info.timescale info == 0)
    by (intros E0; rewrite E0 in Hts; discriminate).
  unfold totalDurationInSeconds. rewrite (num_div_Fin_eq _ _ Hts0).
  assert (Hquot : Info.duration info / Info.timescale info <= 0).
  { apply Qle_shift_div_r; [exact Hts | lra]. }
  destruct (double_nonpos _ Hquot) as [->|[-> Hle]]; [reflexivity|].
  cbn [num_le]. apply Qle_bool_iff in Hle. rewrite Hle. reflexivity.
Qed.

(** X9. A source that parses and has a track but reports a duration and a
    timescale that are both zero is not rejected: 0/0 is NaN, which passes
    the test of line 78, makes the loop of line 86 create no file and fails
    the test of line 152, so the promise resolves with the empty list. *)
Theorem cut_zero_over_zero_resolves_empty buffer d info batches :
  parse env buffer = ParseReady info batches ->
  Info.tracks info <> [] ->
  Info.duration info == 0 -> Info.timescale info == 0 ->
  cutVideo env buffer d
  = ([EvCreateFile; EvAppendBuffer buffer; EvCreateFile; EvAppendBuffer buffer],
     Resolved []).
Proof.
  intros Hparse Htracks Hdur Hts.
  assert (Htotal : totalDurationInSeconds info = NaN).
  { unfold totalDurationInSeconds, num_div.
    apply Qeq_bool_iff in Hts. rewrite Hts.
    assert (H1 : Qltb 0 (Info.duration info) = false) by (apply Qltb_false; lra).
    assert (H2 : Qltb (Info.duration info) 0 = false) by (apply Qltb_false; lra).
    rewrite H1, H2. reflexivity. }
  assert (HN : numSegmentsOf info d = NaN)
    by (unfold numSegmentsOf; rewrite Htotal; reflexivity).
  assert (Hguard : num_le (totalDurationInSeconds info) (Fin 0) = false)
    by (rewrite Htotal; reflexivity).
  assert (Hinf : numSegmentsOf info d <> PosInf) by (rewrite HN; discriminate).
  destruct (cutVideo_ready env buffer d info batches Hparse Htracks Hguard Hinf)
    as (files & Hfiles & ->).
  apply streamed_length in Hfiles. rewrite HN in Hfiles.
  destruct files; [|discriminate].
  unfold setupTrace, settle. rewrite HN. reflexivity.
Qed.

(** *** The names of the clips *)

Lemma list_ascii_of_string_app (s t : string) :
  String.list_ascii_of_string (String.app s t)
  = String.list_ascii_of_string s ++ String.list_ascii_of_string t.
Proof. induction s as [|a s IH]; simpl; [reflexivity|]. rewrite IH. reflexivity. Qed.

Lemma string_app_inj_r (s1 s2 t : string) :
  String.app s1 t = String.app s2 t -> s1 = s2.
Proof.
  intros H. apply (f_equal String.list_ascii_of_string) in H.
  rewrite !list_ascii_of_string_app in H. apply app_inv_tail in H.
  rewrite <- (String.string_of_list_ascii_of_string s1),
          <- (String.string_of_list_ascii_of_string s2), H.
  reflexivity.
Qed.

Lemma zeros_length n s : String.length (zeros n s) = (n + String.length s)%nat.
Proof. induction n as [|n IH]; simpl; [reflexivity|]. f_equal. exact IH. Qed.

(** Reading back a zero-padded string of digits. *)
Lemma zeros_read n s u :
  NilEmpty.uint_of_string s = Some u ->
  NilEmpty.uint_of_string (zeros n s) = Some (Nat.iter n Decimal.D0 u).
Proof.
  intros Hs. induction n as [|n IH]; [exact Hs|].
  change (zeros (S n) s)
    with (String (Ascii.Ascii false false false false true true false false)
                 (zeros n s)).
  cbn [NilEmpty.uint_of_string]. rewrite IH. reflexivity.
Qed.

Lemma string_of_uint_read u :
  exists u', NilEmpty.uint_of_string (NilZero.string_of_uint u) = Some u' /\
             Nat.of_uint u' = Nat.of_uint u.
Proof.
  destruct u; try (eexists; split; [apply NilEmpty.usu | reflexivity]).
  exists (Decimal.D0 Decimal.Nil). split; reflexivity.
Qed.

Lemma of_uint_iter_D0 n u : Nat.of_uint (Nat.iter n Decimal.D0 u) = Nat.of_uint u.
Proof.
  rewrite <- DecimalNat.Unsigned.of_uint_norm, DecimalFacts.unorm_iter_D0.
  apply DecimalNat.Unsigned.of_uint_norm.
Qed.

Lemma clipName_digits (i : nat) :
  exists digits,
    clipName i = String.app "clip_" (String.app digits ".mp4") /\
    (2 <= String.length digits)%nat /\
    option_map Nat.of_uint (NilEmpty.uint_of_string digits) = Some (i + 1)%nat.
Proof.
  unfold clipName, padStart2.
  set (str := NilZero.string_of_uint (Nat.to_uint (i + 1))).
  exists (zeros (2 - String.length str) str). split; [reflexivity|]. split.
  - rewrite zeros_length. lia.
  - destruct (string_of_uint_read (Nat.to_uint (i + 1))) as (u' & Hread & Hval).
    fold str in Hread. rewrite (zeros_read _ _ _ Hread). cbn [option_map].
    rewrite of_uint_iter_D0, Hval, DecimalNat.Unsigned.of_to. reflexivity.
Qed.

Lemma clipName_inj i j : clipName i = clipName j -> i = j.
Proof.
  intros H.
  destruct (clipName_digits i) as (di & Hi & _ & Hri).
  destruct (clipName_digits j) as (dj & Hj & _ & Hrj).
  rewrite Hi, Hj in H. apply String.app_inj, string_app_inj_r in H. subst dj.
  rewrite Hri in Hrj. injection Hrj. lia.
Qed.

(** X10. The clips a cut resolves with are those of the finalized segment
    files whose buffer is not empty, in ascending order of segment: the clip
    of the file finalized at position [i] has the object URL of the buffer
    of that file and the name "clip_", then [i + 1] in decimal digits,
    zero-padded to two digits at least, then ".mp4"; so no two clips of a
    cut have the same name. *)
Theorem cut_clip_names_number_the_segments buffer d clips :
  (cutVideo env buffer d).2 = Resolved clips ->
  exists entries,
    clips
    = map (fun entry =>
             Clip.mk (createObjectURL env (getBuffer env entry.2)) (clipName entry.1))
          entries /\
    (forall i file,
        (i, file) ∈ entries <->
        finalizedFiles (cutVideo env buffer d).1 !! i = Some file /\
        (0 < length (getBuffer env file))%nat) /\
    StronglySorted lt (map fst entries) /\
    NoDup (map Clip.name clips) /\
    (forall i,
       exists digits,
         clipName i = String.app "clip_" (String.app digits ".mp4") /\
         (2 <= String.length digits)%nat /\
         option_map Nat.of_uint (NilEmpty.uint_of_string digits) = Some (i + 1)%nat).
Proof.
  intros Hres.
  destruct (parse env buffer) as [e|info batches|] eqn:Hparse.
  - destruct (cutVideo_unparsed env buffer d) as [_ [H|(e' & _ & H)]];
      congruence.
  - destruct (earlyExit info d) as [o|] eqn:Hearly.
    + rewrite (cutVideo_early env _ _ _ _ _ Hparse Hearly) in Hres.
      cbn [snd] in Hres. subst o. unfold earlyExit in Hearly.
      destruct (Info.tracks info); [discriminate|].
      destruct (num_le (totalDurationInSeconds info) (Fin 0)); [discriminate|].
      destruct (numSegmentsOf info d); discriminate.
    + destruct (earlyExit_None _ _ Hearly) as (Htracks & Hguard & Hinf).
      destruct (cutVideo_ready env buffer d info batches Hparse Htracks Hguard Hinf)
        as (files & Hfiles & Hrun).
      rewrite Hrun in Hres |- *. cbn [fst snd] in Hres |- *. unfold settle in Hres.
      destruct ((length (finalizeFrom env 0 files).2 =? 0)%nat
                && num_lt (Fin 0) (numSegmentsOf info d)); [discriminate|].
      injection Hres as <-. rewrite finalizeFrom_clips.
      rewrite finalizedFiles_setup, finalizedFiles_finalizeFrom.
      exists (nonEmptyFrom env 0 files).
      assert (Hnames : map Clip.name (map (clipOf env) (nonEmptyFrom env 0 files))
                       = map clipName (map fst (nonEmptyFrom env 0 files))).
      { rewrite !List.map_map. reflexivity. }
      pose proof (nonEmptyFrom_sorted env 0 files) as Hsorted.
      split; [reflexivity|]. split; [|split; [exact Hsorted|split]].
      * intros i file. rewrite nonEmptyFrom_spec, Nat.sub_0_r.
        split; [intros (_ & H1 & H2); auto | intros (H1 & H2); repeat split; auto; lia].
      * rewrite Hnames. apply NoDup_fmap_2; [intros i j; apply clipName_inj|].
        clear -Hsorted. induction Hsorted as [|i l _ IH Hlt]; constructor; auto.
        intros Hin. rewrite Forall_forall in Hlt. specialize (Hlt i Hin). lia.
      * intros i. apply clipName_digits.
  - destruct (cutVideo_unparsed env buffer d) as [_ [H|(e' & _ & H)]];
      congruence.
Qed.

(** X11. A sample of a track whose timescale is zero is never kept: its
    time in seconds is Infinity or NaN, which fails the test of line 125.
    When every track of the source has a zero timescale, every file a cut
    finalizes is without samples. *)
Theorem cut_keeps_nothing_of_zero_timescale buffer d info batches file :
  parse env buffer = ParseReady info batches ->
  Forall (fun track => Track.timescale track == 0) (Info.tracks info) ->
  EvGetBuffer file ∈ (cutVideo env buffer d).1 ->
  MP4File.samples file = [].
Proof.
  intros Hparse Hzero Hfile.
  apply cutVideo_finalized in Hfile
    as (info' & batches' & files & Hparse' & _ & Hfiles & Hin).
  rewrite Hparse in Hparse'. injection Hparse' as <- <-.
  pose proof (streamed_kept env _ _ _ _ Hfiles) as Hkept.
  rewrite Forall_forall in Hkept. specialize (Hkept file Hin).
  destruct (MP4File.samples file) as [|entry entries]; [reflexivity|].
  exfalso. apply Forall_cons in Hkept as [Hkept _].
  destruct Hkept as (trackId & samples & track & _ & Hfind & Hkept).
  destruct Hkept as (s & index & _ & Hidx & _).
  apply segmentIndexOf_Fin in Hidx as (Hts & _ & _).
  apply find_some in Hfind as [Htrack _]. apply list_elem_of_In in Htrack.
  rewrite Forall_forall in Hzero. apply Hts, Hzero, Htrack.
Qed.

(** X14. A buffer that MP4Box reports an error for, reports no track for, or
    reports nothing for, makes cutVideo end after the one parse of getInfo:
    the promise is rejected with the error of MP4Box, rejected with the
    no-tracks error, or never settled, and no segment file is created. *)
Theorem cut_fails_fast_without_tracks buffer d :
  (forall info batches,
      parse env buffer = ParseReady info batches -> Info.tracks info = []) ->
  (cutVideo env buffer d).1 = [EvCreateFile; EvAppendBuffer buffer] /\
  (cutVideo env buffer d).2
  = match parse env buffer with
    | ParseError e => Rejected e
    | ParseReady _ _ => Rejected InvalidContainer_info
    | ParseSilent => Pending
    end.
Proof.
  intros Hnone. unfold cutVideo, getInfo.
  destruct (parse env buffer) as [e|info batches|] eqn:Hparse;
    [split; reflexivity | | split; reflexivity].
  rewrite (Hnone info batches eq_refl). split; reflexivity.
Qed.

End CutMore.

(** ** The further properties on explicit inputs *)

Lemma combine_aborts_without_output_witness :
  producesNoOutput
    (combineVideos Demo.env ["blob:movie"; "blob:missing"]%string).1 /\
  (forall url,
      (combineVideos Demo.env ["blob:movie"; "blob:missing"]%string).2
      <> Resolved url).
Proof.
  apply (combine_aborts_without_output Demo.env "blob:movie" "blob:missing" []).
  apply Exists_cons_tl, Exists_cons_hd. reflexivity.
Defined.


Lemma combine_takes_first_track_only_witness :
  exists final,
    finalizedFiles (combineVideos Demo.env demo_urls).1 = [final] /\
    (forall entry,
        entry ∈ MP4File.samples final ->
        exists url buffer info batches track0 tracks call s,
          url ∈ demo_urls /\
          fetch Demo.env url = Resolved buffer /\
          parse Demo.env buffer = ParseReady info batches /\
          Info.tracks info = track0 :: tracks /\
          (Track.id track0, call) ∈ batches /\ s ∈ call /\
          Sample.data entry.2 = Sample.data s).
Proof.
  apply (combine_takes_first_track_only Demo.env "blob:talkie" "blob:movie" []
           demo_sources);
    repeat constructor.
Defined.

Lemma cut_segment_tracks_witness :
  map snd (MP4File.tracks idle_segment) = map mirroredOptions (Info.tracks Demo.info) /\
  length (MP4File.tracks idle_segment) = length (Info.tracks Demo.info).
Proof.
  apply (cut_segment_tracks_mirror_source Demo.env Demo.still 8 Demo.info
           Demo.still_calls idle_segment);
    [reflexivity | elem_by_compute].
Defined.

(** The second segment file of the cut of [Demo.movie] at 8 seconds, and
    the segment file of index 107 of the cut of [Rounding.long] at 0.31
    seconds, which holds the sample at tick 837. *)
Lemma cut_segment_bucket_witness :
  map snd (MP4File.samples second_segment)
  = bucket (Info.tracks Demo.info) (numSegmentsOf Demo.info 8) 8 1 Demo.movie_calls /\
  map snd (MP4File.samples long_segment_107)
  = bucket (Info.tracks Rounding.long_info)
           (numSegmentsOf Rounding.long_info Rounding.d031) Rounding.d031 107
           Rounding.long_calls.
Proof.
  split.
  - apply (cut_segment_holds_its_bucket Demo.env Demo.movie 8 Demo.info
             Demo.movie_calls 1 second_segment);
      [reflexivity | vm_compute; reflexivity].
  - apply (cut_segment_holds_its_bucket Rounding.env Rounding.long Rounding.d031
             Rounding.long_info Rounding.long_calls 107 long_segment_107);
      [reflexivity | vm_compute; reflexivity].
Defined.

Lemma cut_rejects_non_positive_duration_witness :
  cutVideo Replay.env Replay.blank 8
  = ([EvCreateFile; EvAppendBuffer Replay.blank], Rejected InvalidDuration).
Proof.
  apply (cut_rejects_non_positive_duration Replay.env Replay.blank 8
           (Info.mk 0 1 [Demo.video]) []);
    [reflexivity | discriminate | discriminate | reflexivity].
Defined.

Lemma cut_zero_over_zero_witness :
  cutVideo Replay.env Replay.void 8
  = ([EvCreateFile; EvAppendBuffer Replay.void;
      EvCreateFile; EvAppendBuffer Replay.void],
     Resolved []).
Proof.
  apply (cut_zero_over_zero_resolves_empty Replay.env Replay.void 8
           (Info.mk 0 0 [Demo.video]) [(1%Z, [Demo.sample 0 0])]);
    [reflexivity | discriminate | reflexivity | reflexivity].
Defined.

Lemma cut_clip_names_witness :
  exists entries,
    movie_clips
    = map (fun entry =>
             Clip.mk (createObjectURL Demo.env (getBuffer Demo.env entry.2))
                     (clipName entry.1))
          entries /\
    (forall i file,
        (i, file) ∈ entries <->
        finalizedFiles (cutVideo Demo.env Demo.movie 8).1 !! i = Some file /\
        (0 < length (getBuffer Demo.env file))%nat) /\
    StronglySorted lt (map fst entries) /\
    NoDup (map Clip.name movie_clips) /\
    (forall i,
       exists digits,
         clipName i = String.app "clip_" (String.app digits ".mp4") /\
         (2 <= String.length digits)%nat /\
         option_map Nat.of_uint (NilEmpty.uint_of_string digits) = Some (i + 1)%nat).
Proof.
  apply (cut_clip_names_number_the_segments Demo.env Demo.movie 8 movie_clips).
  vm_compute. reflexivity.
Defined.

Lemma cut_zero_timescale_witness : MP4File.samples frozen_segment = [].
Proof.
  apply (cut_keeps_nothing_of_zero_timescale Replay.env Replay.frozen 8
           (Info.mk 20 1 [Replay.frozen_track])
           [(1%Z, [Demo.sample 0 0; Demo.sample 9 9])] frozen_segment);
    [reflexivity | repeat constructor | elem_by_compute].
Defined.

Lemma cut_fails_fast_witness :
  (cutVideo Demo.env [Byte.xff] 8).1 = [EvCreateFile; EvAppendBuffer [Byte.xff]] /\
  (cutVideo Demo.env [Byte.xff] 8).2
  = match parse Demo.env [Byte.xff] with
    | ParseError e => Rejected e
    | ParseReady _ _ => Rejected InvalidContainer_info
    | ParseSilent => Pending
    end.
Proof.
  apply (cut_fails_fast_without_tracks Demo.env [Byte.xff] 8).
  intros info batches H. vm_compute in H. discriminate H.
Defined.
